(** * minGPT poem scripts: corpus builder and generation retry loop

    A shallow embedding of the two scripts of the repository,
    [english_disgraced_poetry.py] (the corpus builder) and [poem_gen.py]
    (the generation loop), and the properties their specification states.

    Python values are modelled as follows.
    - [str] is a list of characters; slicing [s[:k]] and [s[k:]] are
      [take k s] and [drop k s], which clamp out of range as Python does.
    - Characters are 8-bit [ascii]; case tests and case conversion act on
      the letters A-Z / a-z, the other characters are caseless.
    - A raised exception is the [Raise] constructor of [result]; a
      [try/except] is a [match] on it.
    - File system, random-word source, checkpoint loader and sampler are
      outside the scripts: their answers are inputs of the model and the
      calls made to them are recorded in a trace. *)

From Stdlib Require Import Ascii String.
From stdpp Require Import base option list sorting gmap strings.

Abbreviation str := (list ascii).

(** ** Python built-ins used by the scripts *)

Module Py.

(** A Python string literal. *)
Definition lit (s : string) : str := list_ascii_of_string s.

(** The line-feed character, Python's ["\n"]. *)
Definition nl : ascii := ascii_of_nat 10.

Inductive exn :=
| IndexError
| ValueError
| NameError
| OSError
| KeyErrorChar (c : ascii)
| KeyErrorInt (i : nat).

Inductive result (A : Type) :=
| Ok (a : A)
| Raise (e : exn).
Arguments Ok {A} a.
Arguments Raise {A} e.

Definition bind {A B} (r : result A) (k : A → result B) : result B :=
  match r with
  | Ok a => k a
  | Raise e => Raise e
  end.

(** [l[i]] for a non-negative [i]. *)
Definition getitem {A} (l : list A) (i : nat) : result A :=
  match l !! i with
  | Some a => Ok a
  | None => Raise IndexError
  end.

Definition isupper (c : ascii) : bool :=
  (65 <=? nat_of_ascii c) && (nat_of_ascii c <=? 90).

Definition islower (c : ascii) : bool :=
  (97 <=? nat_of_ascii c) && (nat_of_ascii c <=? 122).

Definition upper (c : ascii) : ascii :=
  if islower c then ascii_of_nat (nat_of_ascii c - 32) else c.

Definition lower (c : ascii) : ascii :=
  if isupper c then ascii_of_nat (nat_of_ascii c + 32) else c.

(** [s.capitalize()]: first character upper-cased, the rest lower-cased. *)
Definition capitalize (s : str) : str :=
  match s with
  | [] => []
  | c :: r => upper c :: map lower r
  end.

(** [s.startswith(p)]. *)
Fixpoint startswith (p s : str) : bool :=
  match p, s with
  | [], _ => true
  | _ :: _, [] => false
  | a :: p', b :: s' => bool_decide (a = b) && startswith p' s'
  end.

(** [s.index(sub)]: the lowest position at which [sub] occurs in [s];
    Python raises [ValueError] when there is none. *)
Fixpoint find (s sub : str) : option nat :=
  if startswith sub s then Some 0
  else match s with
       | [] => None
       | _ :: s' => S <$> find s' sub
       end.

Definition index (s sub : str) : result nat :=
  match find s sub with
  | Some k => Ok k
  | None => Raise ValueError
  end.

(** [s.split(sep)] for a non-empty [sep]: the pieces between the
    non-overlapping occurrences of [sep], scanning from the left.  [skip]
    counts the characters of a matched separator still to be passed over,
    [cur] holds the piece being read, reversed. *)
Fixpoint split_scan (sep s : str) (skip : nat) (cur : str) : list str :=
  match s with
  | [] => [rev cur]
  | c :: s' =>
      match skip with
      | S k => split_scan sep s' k cur
      | 0 =>
          if startswith sep s
          then rev cur :: split_scan sep s' (length sep - 1) []
          else split_scan sep s' 0 (c :: cur)
      end
  end.

Definition split (s sep : str) : list str := split_scan sep s 0 [].

(** [s.count(c)] for a one-character [c]. *)
Definition count (s : str) (c : ascii) : nat :=
  length (filter (λ x, x = c) s).

End Py.

Import Py.

(** [result] is a monad: [x ← r; k] runs [k] unless [r] raised. *)
#[global] Instance result_ret : MRet result := λ A a, Ok a.
#[global] Instance result_bind : MBind result := λ A B k r, Py.bind r k.

(** ** The corpus builder, [english_disgraced_poetry.py] *)

Module Corpus.

(** Lines 14-22: a space is put before every upper-case character of
    [file_name] but the first. *)
Definition space_out (file_name : str) : result str :=
  first ← getitem file_name 0;
  Ok (foldl (λ new_file_name c,
               if isupper c then new_file_name ++ lit " " ++ [c]
               else new_file_name ++ [c])
            [first] (drop 1 file_name)).

(** Lines 13-29: title and author from the file's name. *)
Definition parse_name (folder file : str) : result (str * str) :=
  file_name ← getitem (split file (capitalize folder ++ lit "Poems")) 1;
  new_file_name ← space_out file_name;
  let poem_info := split new_file_name (lit "Poemby") in
  title ← getitem poem_info 0;
  tail ← getitem poem_info 1;
  stem ← getitem (split tail (lit ".")) 0;
  Ok (title, drop 1 stem).

(** Lines 41-43.  [int(len(line) / 60)] is the floor of the quotient
    (the float division is exact far beyond any line length). *)
Definition reflow_step (line : str) (i : nat) : str :=
  take (i * 60) line ++ [nl] ++ drop (i * 60) line.

Definition reflow (line : str) : str :=
  let initial_length := length line / 60 in
  foldl reflow_step line (seq 1 (initial_length - 1)).

(** What the inner [try] block (lines 32-49) ends in. *)
Inductive inner :=
| TooLong                       (* line 39: [continue] *)
| Block (mini_string : str).    (* line 49 reached *)

(** Lines 30-47.  [rd] is what [open(...)] followed by [f.readlines()]
    yields: the lines of the file, or the exception raised. *)
Definition poem_block (title author : str) (rd : result (list str))
  : result inner :=
  let mini_string := lit "Poem Start" ++ [nl] in
  let mini_string := mini_string ++ (title ++ [nl; nl]) in
  lines ← rd;
  if 20 <? length lines then Ok TooLong
  else
    let mini_string := foldl (λ m line, m ++ reflow line) mini_string lines in
    Ok (Block (mini_string ++ ([nl] ++ lit "END" ++ [nl] ++ author ++ [nl; nl; nl]))).

(** The script's variables that outlive one file, and what it printed.
    [mini_string] is unbound until its first assignment. *)
Record state := State {
  mega_string : str;
  mini_string : option str;
  console : list str
}.

Definition initial : state := State [] None [].

(** The body of [for file in all_files] (lines 12-55). *)
Definition process_file (folder file : str) (rd : result (list str))
    (st : state) : state :=
  match parse_name folder file with
  | Raise _ =>
      State (mega_string st) (mini_string st) (console st ++ [lit "yikes"])
  | Ok (title, author) =>
      match poem_block title author rd with
      | Raise _ => State (mega_string st) (Some []) (console st)
      | Ok TooLong => State (mega_string st) (Some []) (console st)
      | Ok (Block mini) =>
          State (mega_string st ++ mini) (Some mini) (console st)
      end
  end.

(** What one file adds to [mega_string]. *)
Definition contribution (folder file : str) (rd : result (list str)) : str :=
  match parse_name folder file with
  | Raise _ => []
  | Ok (title, author) =>
      match poem_block title author rd with
      | Ok (Block mini) => mini
      | _ => []
      end
  end.

(** The visual segments of a text: the pieces between its line feeds. *)
Definition segments (s : str) : list str := split s [nl].

(** [ceil(a / b)] *)
Definition ceil_div (a b : nat) : nat := (a + (b - 1)) / b.

(** A folder of the tree: its name and what [os.listdir] answers for it,
    each file with what reading it yields. *)
Definition dir : Type := str * result (list (str * result (list str))).

Definition process_folder (folder : str)
    (all_files : list (str * result (list str))) (st : state) : state :=
  foldl (λ st f, process_file folder f.1 f.2 st) st all_files.

(** Lines 8-55; a failing [os.listdir] is not caught. *)
Fixpoint process_folders (all_folders : list dir) (st : state)
  : result state :=
  match all_folders with
  | [] => Ok st
  | (folder, listing) :: rest =>
      match listing with
      | Raise e => Raise e
      | Ok all_files => process_folders rest (process_folder folder all_files st)
      end
  end.

(** Whether the name of a file parses, that is, lines 13-29 raise nothing. *)
Definition name_parses (folder file : str) : bool :=
  match parse_name folder file with
  | Ok _ => true
  | Raise _ => false
  end.

(** What the files of a folder, and the folders of a tree, add to
    [mega_string], in listing order. *)
Definition folder_text (folder : str)
    (all_files : list (str * result (list str))) : str :=
  concat (map (λ f, contribution folder f.1 f.2) all_files).

Definition tree_text (all_folders : list dir) : str :=
  concat (map (λ d : dir,
                 match d.2 with
                 | Ok all_files => folder_text d.1 all_files
                 | Raise _ => []
                 end) all_folders).

(** The block of one poem as lines 30-47 lay it out. *)
Definition block_of (title author : str) (lines : list str) : str :=
  lit "Poem Start" ++ [nl] ++ title ++ [nl; nl]
  ++ concat (map reflow lines)
  ++ [nl] ++ lit "END" ++ [nl] ++ author ++ [nl; nl; nl].

(** The whole script (lines 6-60): what was printed, one item for each
    [print], and the text written to the output file. *)
Definition main (all_folders : list dir) : result (list str * str) :=
  st ← process_folders all_folders initial;
  Ok (console st ++ [mega_string st], mega_string st).

End Corpus.

(** ** The generation loop, [poem_gen.py] *)

Module Gen.

(** *** [CharDataset] (lines 19-30) *)

Definition char_le (a b : ascii) : Prop := nat_of_ascii a ≤ nat_of_ascii b.

#[global] Instance char_le_dec : RelDecision char_le.
Proof. intros a b. unfold char_le. apply _. Defined.

#[global] Instance char_le_total : Total char_le.
Proof. intros a b. unfold char_le. lia. Qed.

Record CharDataset := Dataset {
  stoi : gmap ascii nat;
  itos : gmap nat ascii;
  block_size : nat;
  vocab_size : nat;
  data : str
}.

(** [sorted(list(set(data)))] *)
Definition sorted_chars (data : str) : list ascii :=
  merge_sort char_le (elements (list_to_set data : gset ascii)).

Definition enumerate {A} (l : list A) : list (nat * A) :=
  imap (λ i x, (i, x)) l.

(** [CharDataset.__init__] (its [print] left out); a dict comprehension
    inserts the pairs in order, a later pair replacing an earlier one with
    the same key. *)
Definition CharDataset_init (data : str) (block_size : nat) : CharDataset :=
  let chars := sorted_chars data in
  Dataset (foldl (λ d p, <[p.2 := p.1]> d) ∅ (enumerate chars))
          (foldl (λ d p, <[p.1 := p.2]> d) ∅ (enumerate chars))
          block_size (length chars) data.

(** [train_dataset.stoi[s]] and [train_dataset.itos[int(i)]] *)
Definition stoi_at (ds : CharDataset) (s : ascii) : result nat :=
  match stoi ds !! s with
  | Some i => Ok i
  | None => Raise (KeyErrorChar s)
  end.

Definition itos_at (ds : CharDataset) (i : nat) : result ascii :=
  match itos ds !! i with
  | Some c => Ok c
  | None => Raise (KeyErrorInt i)
  end.

(** [CharDataset.__len__] (lines 32-33): negative when the data is shorter
    than a block. *)
Definition CharDataset_len (ds : CharDataset) : Z :=
  Z.of_nat (length (data ds)) - Z.of_nat (block_size ds).

(** [CharDataset.__getitem__] (lines 35-75) at a non-negative [idx], the
    two tensors as lists: [data[idx:idx + block_size + 1]] encoded, without
    its last item ([dix[:-1]]) and without its first ([dix[1:]]). *)
Definition CharDataset_getitem (ds : CharDataset) (idx : nat)
  : result (list nat * list nat) :=
  let chunk := take (block_size ds + 1) (drop idx (data ds)) in
  dix ← mapM (stoi_at ds) chunk;
  Ok (take (length dix - 1) dix, drop 1 dix).

(** *** The retry loop (lines 105-116) *)

(** What the outside world answers during one pass of the loop: the word
    [r.get_random_word()] returns (after [str]) and the sampler, a black
    box from the prompt's tokens to the extended token sequence.  The calls
    to the outside world (checkpoint load, word, sampler, the write of line
    116) are taken to return; what is modelled as raising are the
    statements of the script itself. *)
Record attempt := Attempt {
  word : str;
  sampler : list nat → list nat
}.

Inductive event :=
| LoadCheckpoint
| GetRandomWord (w : str)
| Sample (x y : list nat).

(** Line 108 *)
Definition context_of (w : str) : str :=
  lit "Poem Start" ++ [nl] ++ w ++ [nl; nl].

(** Lines 107-111: the calls made and the decoded completion. *)
Definition sample_completion (ds : CharDataset) (a : attempt)
  : list event * result str :=
  let context := context_of (word a) in
  match mapM (stoi_at ds) context with
  | Raise e => ([LoadCheckpoint; GetRandomWord (word a)], Raise e)
  | Ok x =>
      let y := sampler a x in
      ([LoadCheckpoint; GetRandomWord (word a); Sample x y],
       mapM (itos_at ds) y)
  end.

(** The variables one pass of the loop assigns. *)
Record vars := Vars {
  completion : str;
  first_end : nat;
  generation : str;
  number_of_line_breaks : nat
}.

(** Lines 112-114 *)
Definition truncate (completion : str) : result vars :=
  first_end ← index completion (lit "END");
  let generation := take (first_end + 3) completion in
  Ok (Vars completion first_end generation (count generation nl)).

(** The body of the [while] (lines 107-114). *)
Definition iteration (ds : CharDataset) (a : attempt)
  : list event * result vars :=
  let (tr, r) := sample_completion ds a in (tr, r ≫= truncate).

Inductive outcome :=
| Written (content : str)   (* line 116: the loop was left, the file written *)
| Crashed (e : exn)         (* an exception nobody catches *)
| Sampling.                 (* the answers ran out with the loop still going *)

Record run := Run {
  outcome_of : outcome;
  trace : list event;
  attempts : nat
}.

(** Lines 106-116.  [breaks] is the current [number_of_line_breaks],
    [last] the variables of the latest pass (none before the first). *)
Fixpoint retry_loop (ds : CharDataset) (breaks : nat) (last : option vars)
    (answers : list attempt) : run :=
  if 18 <? breaks then
    match answers with
    | [] => Run Sampling [] 0
    | a :: answers' =>
        match iteration ds a with
        | (tr, Raise e) => Run (Crashed e) tr 1
        | (tr, Ok v) =>
            let r := retry_loop ds (number_of_line_breaks v) (Some v) answers' in
            Run (outcome_of r) (tr ++ trace r) (S (attempts r))
        end
    end
  else
    match last with
    | None => Run (Crashed NameError) [] 0
    | Some v =>
        Run (Written (take (first_end v + 3) (completion v)
                      ++ ([nl] ++ lit "Poetic AI"))) [] 0
    end.

(** Line 105 and the loop. *)
Definition generate (ds : CharDataset) (answers : list attempt) : run :=
  retry_loop ds 1000 None answers.

(** Lines 78-116: the script on the corpus [text].  Line 93 evaluates
    [len(train_dataset)], and [len] raises [ValueError] on a negative
    [__len__], that is, on a corpus shorter than the block of 128; building
    the model and the trainer (lines 84-95) is otherwise left to the outside
    world. *)
Definition poem_gen (text : str) (answers : list attempt) : run :=
  let train_dataset := CharDataset_init text 128 in
  if (CharDataset_len train_dataset <? 0)%Z then Run (Crashed ValueError) [] 0
  else generate train_dataset answers.

(** What a pass over the answer [a] ends in, and the two ways the guard of
    line 106 reads it. *)
Definition attempt_result (ds : CharDataset) (a : attempt) : result vars :=
  (iteration ds a).2.

Definition rejected (ds : CharDataset) (a : attempt) : Prop :=
  ∃ v, attempt_result ds a = Ok v ∧ 18 < number_of_line_breaks v.

Definition accepted (ds : CharDataset) (a : attempt) (v : vars) : Prop :=
  attempt_result ds a = Ok v ∧ number_of_line_breaks v ≤ 18.

(** The text line 116 writes for an accepted generation. *)
Definition signed (generation : str) : str :=
  generation ++ ([nl] ++ lit "Poetic AI").

Definition is_load (e : event) : bool :=
  match e with
  | LoadCheckpoint => true
  | _ => false
  end.

(** How often [trainer.load_checkpoint()] was called. *)
Definition loads (tr : list event) : nat := length (filter is_load tr).

End Gen.

(** ** A small corpus and some answers of the outside world *)

Module Demo.

Import Gen.

(** One poem: the corpus as the builder writes it. *)
Definition text : str :=
  lit "Poem Start" ++ [nl] ++ lit "cat" ++ [nl; nl]
  ++ lit "a line" ++ [nl] ++ lit "END" ++ [nl] ++ lit "cat" ++ [nl; nl; nl].

Definition ds : CharDataset := CharDataset_init text 128.

(** The tokens of a string of corpus characters. *)
Definition tokens (s : str) : list nat := omap (λ c, stoi ds !! c) s.

(** A sampler that extends the prompt by the tokens of [s]. *)
Definition says (s : str) : list nat → list nat := λ x, x ++ tokens s.

(** A short poem. *)
Definition short : attempt :=
  Attempt (lit "cat")
          (says (lit "a line" ++ [nl] ++ lit "END" ++ [nl] ++ lit "cat")).

(** 25 empty lines, then END: 28 line breaks with those of the prompt. *)
Definition long : attempt :=
  Attempt (lit "cat") (says (replicate 25 nl ++ lit "END")).

(** No END. *)
Definition endless : attempt := Attempt (lit "cat") (says (lit "a line")).

(** A word with a character the corpus does not have. *)
Definition dog : attempt := Attempt (lit "dog") (says (lit "END")).

Definition short_completion : str :=
  lit "Poem Start" ++ [nl] ++ lit "cat" ++ [nl; nl]
  ++ lit "a line" ++ [nl] ++ lit "END" ++ [nl] ++ lit "cat".

Definition short_generation : str :=
  lit "Poem Start" ++ [nl] ++ lit "cat" ++ [nl; nl]
  ++ lit "a line" ++ [nl] ++ lit "END".

End Demo.

(** ** Facts about the built-ins *)

Section py_facts.

Implicit Types s sub pre post : str.

Lemma startswith_spec sub s :
  startswith sub s = true ↔ ∃ post, s = sub ++ post.
Proof.
  revert s. induction sub as [|a sub IH]; intros [|b s]; simpl.
  - split; [eauto | done].
  - split; [eauto | done].
  - split; [done | intros [post ?]; done].
  - rewrite andb_true_iff, bool_decide_eq_true, IH. split.
    + intros [-> [post ->]]. by exists post.
    + intros [post [= -> ->]]. eauto.
Qed.

Lemma startswith_false sub s post :
  startswith sub s = false → s ≠ sub ++ post.
Proof.
  intros Hf ->. assert (startswith sub (sub ++ post) = true) as Ht.
  { apply startswith_spec. eauto. }
  congruence.
Qed.

(** [find] returns an occurrence, and the leftmost one. *)
Lemma find_Some s sub k :
  find s sub = Some k →
  ∃ pre post, s = pre ++ sub ++ post ∧ length pre = k ∧
    ∀ pre' post', s = pre' ++ sub ++ post' → k ≤ length pre'.
Proof.
  revert k. induction s as [|c s IH]; intros k; simpl.
  - destruct (startswith sub []) eqn:Hs; [|done].
    intros [= <-]. apply startswith_spec in Hs as [post ->].
    exists [], post. split_and!; [done..|]. intros; lia.
  - destruct (startswith sub (c :: s)) eqn:Hs.
    + intros [= <-]. apply startswith_spec in Hs as [post ->].
      exists [], post. split_and!; [done..|]. intros; lia.
    + destruct (find s sub) as [k'|] eqn:Hf; [|done]. simpl.
      intros [= <-].
      destruct (IH k' eq_refl) as (pre & post & -> & <- & Hmin).
      exists (c :: pre), post. split_and!; [done..|].
      intros [|c' pre'] post' Heq.
      * by apply startswith_false with (post := post') in Hs.
      * simpl in *. injection Heq as -> Heq. apply Hmin in Heq. lia.
Qed.

Lemma find_None s sub :
  find s sub = None → ∀ pre post, s ≠ pre ++ sub ++ post.
Proof.
  induction s as [|c s IH]; simpl.
  - destruct (startswith sub []) eqn:Hs; [done|].
    intros _ [|? ?] post Heq; [|done].
    by apply startswith_false with (post := post) in Hs.
  - destruct (startswith sub (c :: s)) eqn:Hs; [done|].
    destruct (find s sub) eqn:Hf; [done|]. intros _ [|c' pre] post Heq.
    + by apply startswith_false with (post := post) in Hs.
    + injection Heq as -> Heq. by eapply IH.
Qed.

Lemma find_occurs s sub pre post :
  s = pre ++ sub ++ post → ∃ k, find s sub = Some k ∧ k ≤ length pre.
Proof.
  intros Heq. destruct (find s sub) as [k|] eqn:Hf.
  - exists k. split; [done|].
    destruct (find_Some _ _ _ Hf) as (? & ? & _ & _ & Hmin). eauto.
  - by apply find_None with (pre := pre) (post := post) in Hf.
Qed.

Lemma startswith_length sub s : startswith sub s = true → length sub ≤ length s.
Proof.
  revert s. induction sub as [|a sub IH]; intros [|b s]; simpl; try (done || lia).
  rewrite andb_true_iff. intros [_ ?%IH]. lia.
Qed.

(** Passing over the rest of a matched separator. *)
Lemma split_scan_skip sep s n cur :
  n ≤ length s → split_scan sep s n cur = split_scan sep (drop n s) 0 cur.
Proof.
  revert n. induction s as [|c s IH]; intros [|n] Hn; simpl in *; try (done || lia).
  apply IH. lia.
Qed.

Lemma split_scan_find sep s cur :
  sep ≠ [] →
  split_scan sep s 0 cur
  = match find s sep with
    | None => [rev cur ++ s]
    | Some k => (rev cur ++ take k s) :: split (drop (k + length sep) s) sep
    end.
Proof.
  intros Hsep. revert cur. induction s as [|c s IH]; intros cur.
  - destruct sep; [done|]. simpl. by rewrite app_nil_r.
  - cbn [split_scan find].
    destruct (startswith sep (c :: s)) eqn:Hs.
    + rewrite take_0, app_nil_r. f_equal.
      apply startswith_length in Hs. simpl in Hs.
      rewrite split_scan_skip by lia. unfold split. f_equal.
      destruct sep; [done|]. simpl. by rewrite Nat.sub_0_r.
    + rewrite IH. destruct (find s sep) as [k|]; simpl.
      * by rewrite <-app_assoc.
      * by rewrite <-app_assoc.
Qed.

(** [split] is the leftmost-first cutting at the occurrences of [sep]. *)
Lemma split_unfold s sep :
  sep ≠ [] →
  split s sep
  = match find s sep with
    | None => [s]
    | Some k => take k s :: split (drop (k + length sep) s) sep
    end.
Proof. intros Hsep. unfold split at 1. by rewrite split_scan_find. Qed.

Lemma count_app s1 s2 c : count (s1 ++ s2) c = count s1 c + count s2 c.
Proof. unfold count. by rewrite filter_app, length_app. Qed.

Lemma count_le_length s c : count s c ≤ length s.
Proof. unfold count. apply length_filter. Qed.

End py_facts.

(** ** The corpus builder: results *)

Section corpus_facts.

Import Corpus.

Implicit Types folder file line : str.
Implicit Types rd : result (list str).
Implicit Types st : state.

Lemma process_file_mega folder file rd st :
  mega_string (process_file folder file rd st)
  = mega_string st ++ contribution folder file rd.
Proof.
  unfold process_file, contribution.
  destruct (parse_name folder file) as [[title author]|e]; simpl.
  - destruct (poem_block title author rd) as [[|mini]|e]; simpl;
      by rewrite ?app_nil_r.
  - by rewrite app_nil_r.
Qed.

Lemma process_folder_mega folder files st :
  mega_string (process_folder folder files st)
  = mega_string st
    ++ concat (map (λ f, contribution folder f.1 f.2) files).
Proof.
  unfold process_folder. revert st.
  induction files as [|[file rd] files IH]; intros st; simpl.
  - by rewrite app_nil_r.
  - by rewrite IH, process_file_mega, <-app_assoc.
Qed.

(** A file that adds nothing can be taken out of the listing without
    changing the output. *)
Lemma process_folder_drop folder file rd before after st :
  contribution folder file rd = [] →
  mega_string (process_folder folder (before ++ (file, rd) :: after) st)
  = mega_string (process_folder folder (before ++ after) st).
Proof.
  intros Hc. rewrite !process_folder_mega, !map_app, !concat_app. simpl.
  by rewrite Hc.
Qed.

Lemma poem_block_too_long title author lines :
  20 < length lines → poem_block title author (Ok lines) = Ok TooLong.
Proof.
  intros Hlen. unfold poem_block. simpl.
  destruct (20 <? length lines) eqn:Hlt; [done|].
  apply Nat.ltb_ge in Hlt. lia.
Qed.

Lemma poem_block_raise title author e :
  poem_block title author (Raise e) = Raise e.
Proof. done. Qed.

(** The reflow loop does nothing to a line shorter than 120 characters. *)
Lemma reflow_short line : length line < 120 → reflow line = line.
Proof.
  intros Hlen. unfold reflow.
  assert (length line / 60 ≤ 1) as Hq.
  { apply Nat.lt_succ_r, Nat.Div0.div_lt_upper_bound. simpl. lia. }
  by replace (length line / 60 - 1) with 0 by lia.
Qed.

Lemma strip_reflow_step (P : ascii → Prop) `{!∀ c, Decision (P c)} line i :
  ¬ P nl →
  filter P (reflow_step line i) = filter P line.
Proof.
  intros Hnl. unfold reflow_step.
  rewrite !filter_app, filter_cons_False, filter_nil by done. simpl.
  by rewrite <-filter_app, take_drop.
Qed.

Lemma strip_reflow_steps (P : ascii → Prop) `{!∀ c, Decision (P c)} idx line :
  ¬ P nl →
  filter P (foldl reflow_step line idx) = filter P line.
Proof.
  intros Hnl. revert line.
  induction idx as [|i idx IH]; intros line; simpl; [done|].
  by rewrite IH, strip_reflow_step.
Qed.

End corpus_facts.

(** ** The corpus builder: the specified properties *)

Section corpus_claims.

Import Corpus.

Implicit Types folder file line : str.
Implicit Types rd : result (list str).
Implicit Types st : state.

(** Every pass of the reflow loop adds one line feed. *)
Lemma count_reflow_steps idx line :
  count (foldl reflow_step line idx) nl = count line nl + length idx.
Proof.
  revert line. induction idx as [|i idx IH]; intros line; simpl; [lia|].
  rewrite IH. unfold reflow_step. rewrite !count_app.
  rewrite <-(take_drop (i * 60) line) at 3. rewrite count_app.
  assert (count [nl] nl = 1) as -> by reflexivity. lia.
Qed.

Lemma reflow_newline_count line :
  count (reflow line) nl = count line nl + (length line / 60 - 1).
Proof. unfold reflow. by rewrite count_reflow_steps, length_seq. Qed.

(** C9: the reflow only inserts line feeds.  Deleting the line feeds from
    the reflowed line gives what deleting them from the line itself gives,
    so no character is removed and none changes place. *)
Theorem reflow_only_inserts_newlines line :
  filter (λ c, c ≠ nl) (reflow line) = filter (λ c, c ≠ nl) line.
Proof.
  unfold reflow. apply strip_reflow_steps. intros Hne. by apply Hne.
Qed.

(** C2: the reflow loop on a line of 90 characters and on one of 180.  The
    first is returned as it is, one segment of 90 characters where
    [ceil(90/60)] is 2; the second is cut into segments of 60, 59 and 61
    characters.  The loop runs over [range(1, initial_length)], one pass
    short, and each inserted line feed shifts the later cut by one. *)
Theorem reflow_long_line_segments :
  reflow (replicate 90 "a"%char) = replicate 90 "a"%char
  ∧ segments (reflow (replicate 90 "a"%char)) = [replicate 90 "a"%char]
  ∧ ceil_div 90 60 = 2
  ∧ segments (reflow (replicate 180 "a"%char))
    = [replicate 60 "a"%char; replicate 59 "a"%char; replicate 61 "a"%char]
  ∧ ceil_div 180 60 = 3.
Proof. by vm_compute. Qed.

(** C3: a file of more than 20 lines adds nothing to [mega_string]: the
    output of the folder is the one obtained without the file, and when the
    length test is reached (the name parsed) [mini_string] is left empty and
    nothing is printed. *)
Theorem long_poem_contributes_nothing folder file lines st :
  20 < length lines →
  mega_string (process_file folder file (Ok lines) st) = mega_string st
  ∧ contribution folder file (Ok lines) = []
  ∧ (∀ before after,
       mega_string (process_folder folder
                      (before ++ (file, Ok lines) :: after) st)
       = mega_string (process_folder folder (before ++ after) st))
  ∧ (∀ title author,
       parse_name folder file = Ok (title, author) →
       poem_block title author (Ok lines) = Ok TooLong
       ∧ process_file folder file (Ok lines) st
         = State (mega_string st) (Some []) (console st)).
Proof.
  intros Hlen.
  assert (contribution folder file (Ok lines) = []) as Hc.
  { unfold contribution.
    destruct (parse_name folder file) as [[title author]|e]; [|done].
    by rewrite poem_block_too_long. }
  split_and!.
  - by rewrite process_file_mega, Hc, app_nil_r.
  - done.
  - intros before after. by apply process_folder_drop.
  - intros title author Hp. split; [by apply poem_block_too_long|].
    unfold process_file. by rewrite Hp, poem_block_too_long.
Qed.

Lemma long_poem_contributes_nothing_witness :
  20 < length (replicate 21 (lit "a line" ++ [nl]))
  ∧ mega_string
      (process_file (lit "nature")
         (lit "NaturePoemsTheOldCatPoemby JaneDoe.txt")
         (Ok (replicate 21 (lit "a line" ++ [nl]))) initial)
    = mega_string initial.
Proof.
  assert (20 < length (replicate 21 (lit "a line" ++ [nl]))) as Hlen.
  { vm_compute. lia. }
  split; [exact Hlen|].
  exact (proj1 (long_poem_contributes_nothing (lit "nature")
                  (lit "NaturePoemsTheOldCatPoemby JaneDoe.txt")
                  (replicate 21 (lit "a line" ++ [nl])) initial Hlen)).
Defined.

(** C8: a file whose name does not parse, or whose reading raises, is
    skipped and [mega_string] is what it was before the file: the output of
    the folder is the one obtained without the file.  A name that does not
    parse prints the one message and touches no variable; a read that
    raises prints nothing and leaves [mini_string] empty. *)
Theorem failed_file_is_skipped folder file rd st :
  (∃ e, parse_name folder file = Raise e) ∨ (∃ e, rd = Raise e) →
  mega_string (process_file folder file rd st) = mega_string st
  ∧ ((∃ e, parse_name folder file = Raise e)
       ∧ process_file folder file rd st
         = State (mega_string st) (mini_string st)
                 (console st ++ [lit "yikes"])
     ∨ (∃ title author e,
          parse_name folder file = Ok (title, author)
          ∧ poem_block title author rd = Raise e)
       ∧ process_file folder file rd st
         = State (mega_string st) (Some []) (console st))
  ∧ (∀ before after,
       mega_string (process_folder folder (before ++ (file, rd) :: after) st)
       = mega_string (process_folder folder (before ++ after) st)).
Proof.
  intros Hfail.
  assert (contribution folder file rd = []) as Hc.
  { unfold contribution.
    destruct (parse_name folder file) as [[title author]|e]; [|done].
    destruct Hfail as [[e ?]|[e ->]]; [done|]. by rewrite poem_block_raise. }
  split_and!.
  - by rewrite process_file_mega, Hc, app_nil_r.
  - unfold process_file.
    destruct (parse_name folder file) as [[title author]|e] eqn:Hp.
    + right. destruct Hfail as [[e ?]|[e ->]]; [done|].
      rewrite poem_block_raise. split; [|done]. by exists title, author, e.
    + left. split; [by exists e | done].
  - intros before after. by apply process_folder_drop.
Qed.

Lemma failed_file_is_skipped_witness :
  mega_string
    (process_file (lit "nature") (lit "NaturePoemsTheOldCatPoemby JaneDoe.txt")
       (Raise OSError) (State (lit "earlier poems") None []))
  = lit "earlier poems".
Proof.
  exact (proj1 (failed_file_is_skipped (lit "nature")
                  (lit "NaturePoemsTheOldCatPoemby JaneDoe.txt")
                  (Raise OSError) (State (lit "earlier poems") None [])
                  (or_intror (ex_intro _ OSError eq_refl)))).
Defined.

(** C5, as the specification states it, fails: the file name of the
    example is not parsed to that title and author. *)
Lemma spec_example_not_parsed :
  parse_name (lit "nature")
    (lit "natureCatsPoemsTheOldCatPoemby JaneDoe.txt")
  ≠ Ok (lit "The Old Cat", lit "JaneDoe").
Proof. vm_compute. discriminate. Qed.

(** C5, amended: the marker of folder [nature] is [NaturePoems], which the
    file name of the example does not contain, so the split has one piece,
    its item 1 is missing and the file is skipped with the console message.
    The name that does start with the marker parses to the title
    ["The Old Cat "] (a space ends it) and the author [" Jane Doe"]. *)
Theorem spec_example_skipped :
  capitalize (lit "nature") ++ lit "Poems" = lit "NaturePoems"
  ∧ split (lit "natureCatsPoemsTheOldCatPoemby JaneDoe.txt")
          (lit "NaturePoems")
    = [lit "natureCatsPoemsTheOldCatPoemby JaneDoe.txt"]
  ∧ parse_name (lit "nature")
      (lit "natureCatsPoemsTheOldCatPoemby JaneDoe.txt")
    = Raise IndexError
  ∧ (∀ rd st,
       process_file (lit "nature")
         (lit "natureCatsPoemsTheOldCatPoemby JaneDoe.txt") rd st
       = State (mega_string st) (mini_string st)
               (console st ++ [lit "yikes"]))
  ∧ parse_name (lit "nature")
      (lit "NaturePoemsTheOldCatPoemby JaneDoe.txt")
    = Ok (lit "The Old Cat ", lit " Jane Doe").
Proof.
  assert (parse_name (lit "nature")
            (lit "natureCatsPoemsTheOldCatPoemby JaneDoe.txt")
          = Raise IndexError) as Hp by (by vm_compute).
  split_and!; [by vm_compute | by vm_compute | done | | by vm_compute].
  intros rd st. unfold process_file. by rewrite Hp.
Qed.

End corpus_claims.

(** ** The generation loop: facts *)

Section gen_facts.

Import Gen.

Implicit Types ds : CharDataset.
Implicit Types a : attempt.
Implicit Types answers earlier later : list attempt.

Lemma truncate_Ok completion v :
  truncate completion = Ok v →
  find completion (lit "END") = Some (first_end v)
  ∧ Gen.completion v = completion
  ∧ generation v = take (first_end v + 3) completion
  ∧ number_of_line_breaks v = count (generation v) nl.
Proof.
  unfold truncate, index.
  destruct (find completion (lit "END")) as [k|]; simpl; [|done].
  by intros [= <-].
Qed.

Lemma attempt_result_Ok ds a v :
  attempt_result ds a = Ok v →
  ∃ tr, sample_completion ds a = (tr, Ok (completion v))
        ∧ truncate (completion v) = Ok v.
Proof.
  unfold attempt_result, iteration.
  destruct (sample_completion ds a) as [tr [c|e]]; simpl; [|done].
  intros Ht. destruct (truncate_Ok _ _ Ht) as (_ & <- & _). eauto.
Qed.

(** The events of one pass: the checkpoint is loaded, then the word is
    drawn, then (if the prompt encodes) the sampler is called. *)
Lemma iteration_trace ds a :
  ∃ rest, (iteration ds a).1 = LoadCheckpoint :: GetRandomWord (word a) :: rest
          ∧ (rest = [] ∨ ∃ x, rest = [Sample x (sampler a x)]).
Proof.
  unfold iteration, sample_completion.
  destruct (mapM (stoi_at ds) (context_of (word a))) as [x|e]; simpl; eauto.
Qed.

Lemma retry_loop_stop ds breaks v answers :
  breaks ≤ 18 →
  retry_loop ds breaks (Some v) answers
  = Run (Written (signed (take (first_end v + 3) (completion v)))) [] 0.
Proof.
  intros Hle. destruct answers; simpl;
    (destruct (18 <? breaks) eqn:Hlt; [apply Nat.ltb_lt in Hlt; lia | done]).
Qed.

Lemma retry_loop_nil ds breaks last :
  18 < breaks → retry_loop ds breaks last [] = Run Sampling [] 0.
Proof. intros Hlt. simpl. apply Nat.ltb_lt in Hlt. by rewrite Hlt. Qed.

Lemma retry_loop_raise ds breaks last a answers e :
  18 < breaks → attempt_result ds a = Raise e →
  retry_loop ds breaks last (a :: answers)
  = Run (Crashed e) (iteration ds a).1 1.
Proof.
  intros Hlt He. simpl. apply Nat.ltb_lt in Hlt. rewrite Hlt.
  unfold attempt_result in He. destruct (iteration ds a) as [tr r].
  simpl in *. by subst.
Qed.

Lemma retry_loop_next ds breaks last a answers v :
  18 < breaks → attempt_result ds a = Ok v →
  retry_loop ds breaks last (a :: answers)
  = Run (outcome_of (retry_loop ds (number_of_line_breaks v) (Some v) answers))
        ((iteration ds a).1
           ++ trace (retry_loop ds (number_of_line_breaks v) (Some v) answers))
        (S (attempts (retry_loop ds (number_of_line_breaks v) (Some v) answers))).
Proof.
  intros Hlt He. simpl. apply Nat.ltb_lt in Hlt. rewrite Hlt.
  unfold attempt_result in He. destruct (iteration ds a) as [tr r].
  simpl in *. by subst.
Qed.

(** While the answers are rejected the loop goes on to the next one. *)
Lemma retry_loop_rejected ds earlier :
  Forall (rejected ds) earlier →
  ∀ breaks last, 18 < breaks →
  ∃ breaks' last', 18 < breaks' ∧ ∀ later,
    retry_loop ds breaks last (earlier ++ later)
    = Run (outcome_of (retry_loop ds breaks' last' later))
          (concat (map (λ a, (iteration ds a).1) earlier)
             ++ trace (retry_loop ds breaks' last' later))
          (length earlier + attempts (retry_loop ds breaks' last' later)).
Proof.
  induction 1 as [|a earlier (v & Hv & Hlt) _ IH]; intros breaks last Hb.
  - exists breaks, last. split; [done|]. intros later. simpl.
    by destruct (retry_loop ds breaks last later).
  - destruct (IH (number_of_line_breaks v) (Some v) Hlt)
      as (breaks' & last' & Hb' & Heq).
    exists breaks', last'. split; [done|]. intros later.
    rewrite <-app_comm_cons, (retry_loop_next _ _ _ _ _ v), Heq by done.
    simpl. by rewrite app_assoc.
Qed.

Lemma rejected_not_accepted ds a v : rejected ds a → accepted ds a v → False.
Proof. intros (v' & Hv' & Hlt) [Hv Hle]. rewrite Hv in Hv'. simplify_eq. lia. Qed.

(** How the loop ends, read off the answers: at the first answer that is
    not rejected, which it accepts or on which it crashes; with every answer
    rejected it is still sampling. *)
Lemma retry_loop_outcome ds answers :
  ∀ breaks last, 18 < breaks →
  match outcome_of (retry_loop ds breaks last answers) with
  | Written content =>
      ∃ k a v, attempts (retry_loop ds breaks last answers) = S k
        ∧ answers !! k = Some a ∧ accepted ds a v
        ∧ content = signed (generation v)
        ∧ Forall (rejected ds) (take k answers)
  | Crashed e =>
      ∃ k a, attempts (retry_loop ds breaks last answers) = S k
        ∧ answers !! k = Some a ∧ attempt_result ds a = Raise e
        ∧ Forall (rejected ds) (take k answers)
  | Sampling =>
      attempts (retry_loop ds breaks last answers) = length answers
      ∧ Forall (rejected ds) answers
  end.
Proof.
  induction answers as [|a answers IH]; intros breaks last Hb.
  - by rewrite retry_loop_nil.
  - destruct (attempt_result ds a) as [v|e] eqn:Hr.
    + rewrite (retry_loop_next _ _ _ _ _ v) by done. simpl.
      destruct (decide (18 < number_of_line_breaks v)) as [Hlt|Hle].
      * specialize (IH (number_of_line_breaks v) (Some v) Hlt).
        assert (rejected ds a) as Hrej by (by exists v).
        destruct (outcome_of (retry_loop ds _ (Some v) answers)).
        -- destruct IH as (k & a' & v' & -> & ? & ? & ? & ?).
           exists (S k), a', v'. simpl. split_and!; [done..|by constructor].
        -- destruct IH as (k & a' & -> & ? & ? & ?).
           exists (S k), a'. simpl. split_and!; [done..|by constructor].
        -- destruct IH as [-> ?]. split; [done|by constructor].
      * rewrite retry_loop_stop by lia. simpl.
        exists 0, a, v. split_and!; [done|done| |..|by constructor].
        -- split; [done|lia].
        -- destruct (attempt_result_Ok _ _ _ Hr) as (tr & _ & Ht).
           destruct (truncate_Ok _ _ Ht) as (_ & _ & -> & _). done.
    + rewrite (retry_loop_raise _ _ _ _ _ e) by done. simpl.
      exists 0, a. split_and!; [done..|by constructor].
Qed.

(** The trace is the events of the passes made, one after the other. *)
Lemma retry_loop_trace ds answers :
  ∀ breaks last,
  trace (retry_loop ds breaks last answers)
  = concat (map (λ a, (iteration ds a).1)
              (take (attempts (retry_loop ds breaks last answers)) answers))
  ∧ attempts (retry_loop ds breaks last answers) ≤ length answers.
Proof.
  induction answers as [|a answers IH]; intros breaks last.
  - simpl. destruct (18 <? breaks); [by simpl|].
    by destruct last; simpl.
  - destruct (decide (18 < breaks)) as [Hlt|Hle].
    + destruct (attempt_result ds a) as [v|e] eqn:Hr.
      * rewrite (retry_loop_next _ _ _ _ _ v) by done. simpl.
        destruct (IH (number_of_line_breaks v) (Some v)) as [<- ?].
        split; [done|lia].
      * rewrite (retry_loop_raise _ _ _ _ _ e) by done. simpl.
        rewrite app_nil_r. split; [done|lia].
    + simpl. destruct (18 <? breaks) eqn:Hb; [apply Nat.ltb_lt in Hb; lia|].
      destruct last; simpl; split; (done || lia).
Qed.

Lemma loads_app tr1 tr2 : loads (tr1 ++ tr2) = loads tr1 + loads tr2.
Proof. unfold loads. by rewrite filter_app, length_app. Qed.

Lemma loads_iteration ds a : loads (iteration ds a).1 = 1.
Proof.
  destruct (iteration_trace ds a) as (rest & -> & [->|[x ->]]); done.
Qed.

Lemma loads_passes ds answers :
  loads (concat (map (λ a, (iteration ds a).1) answers)) = length answers.
Proof.
  induction answers as [|a answers IH]; simpl; [done|].
  by rewrite loads_app, loads_iteration, IH.
Qed.

(** *** The character table *)

Lemma snd_enumerate {A} (l : list A) : (enumerate l).*2 = l.
Proof.
  unfold enumerate. generalize (@id nat) as g.
  change (λ (i : nat) (x : A), (i, x)) with (λ (i : nat) (x : A), (id i, x)).
  generalize (@id nat).
  induction l as [|x l IH]; intros g _; simpl; [done|].
  f_equal. apply (IH (g ∘ S) id).
Qed.

Lemma stoi_fold_None (l : list (nat * ascii)) (d : gmap ascii nat) c :
  foldl (λ d p, <[p.2 := p.1]> d) d l !! c = None
  ↔ d !! c = None ∧ c ∉ l.*2.
Proof.
  revert d. induction l as [|p l IH]; intros d; simpl.
  - split; [|by intros [? _]]. intros ?. split; [done|]. apply not_elem_of_nil.
  - rewrite IH, lookup_insert_None, not_elem_of_cons.
    split; [intros [[? ?] ?] | intros [? [? ?]]]; split_and!;
      (done || congruence).
Qed.

Lemma elem_of_sorted_chars c text : c ∈ sorted_chars text ↔ c ∈ text.
Proof.
  unfold sorted_chars.
  by rewrite merge_sort_Permutation, elem_of_elements, elem_of_list_to_set.
Qed.

(** The table lists every character once, in increasing order. *)
Lemma sorted_chars_sorted text : Sorted char_le (sorted_chars text).
Proof. apply (Sorted_merge_sort char_le). Qed.

Lemma sorted_chars_NoDup text : NoDup (sorted_chars text).
Proof.
  unfold sorted_chars. rewrite merge_sort_Permutation. apply NoDup_elements.
Qed.

(** The encoding map is defined on the characters of the corpus only. *)
Lemma stoi_None text bs c :
  stoi (CharDataset_init text bs) !! c = None ↔ c ∉ text.
Proof.
  simpl. rewrite stoi_fold_None, snd_enumerate, elem_of_sorted_chars.
  rewrite lookup_empty. tauto.
Qed.

Lemma stoi_at_Some ds c i : stoi ds !! c = Some i → stoi_at ds c = Ok i.
Proof. unfold stoi_at. by intros ->. Qed.

Lemma stoi_at_None ds c :
  stoi ds !! c = None → stoi_at ds c = Raise (KeyErrorChar c).
Proof. unfold stoi_at. by intros ->. Qed.

(** Encoding raises on the first character the map does not have. *)
Lemma encode_missing ds (context : str) c :
  c ∈ context → stoi ds !! c = None →
  ∃ c', c' ∈ context ∧ stoi ds !! c' = None
        ∧ mapM (stoi_at ds) context = Raise (KeyErrorChar c').
Proof.
  induction context as [|x context IH]; intros Hin Hc.
  - by apply elem_of_nil in Hin.
  - destruct (stoi ds !! x) as [i|] eqn:Hx.
    + apply elem_of_cons in Hin as [->|Hin]; [congruence|].
      destruct (IH Hin Hc) as (c' & ? & ? & Hm).
      exists c'. split_and!; [by right | done |].
      simpl. rewrite (stoi_at_Some _ _ _ Hx). simpl. by rewrite Hm.
    + exists x. split_and!; [by left | done |].
      simpl. by rewrite (stoi_at_None _ _ Hx).
Qed.

Lemma encode_defined ds (context : str) :
  (∀ c, c ∈ context → is_Some (stoi ds !! c)) →
  ∃ x, mapM (stoi_at ds) context = Ok x.
Proof.
  induction context as [|c context IH]; intros Hall; simpl; [by eexists|].
  destruct (Hall c) as [i Hi]; [by left|].
  destruct IH as [x Hx]; [intros; apply Hall; by right|].
  exists (i :: x). rewrite (stoi_at_Some _ _ _ Hi). simpl. by rewrite Hx.
Qed.

End gen_facts.

(** ** The generation loop: the specified properties *)

Section gen_claims.

Import Gen.

Implicit Types ds : CharDataset.
Implicit Types a : attempt.
Implicit Types answers earlier later : list attempt.

(** An answer that is not rejected, with every answer before it rejected,
    is at one position only. *)
Lemma first_unrejected ds answers k a :
  Forall (rejected ds) (take k answers) → answers !! k = Some a →
  ∀ j b, answers !! j = Some b → ¬ rejected ds b → k ≤ j.
Proof.
  intros Hrej Ha j b Hb Hnot. destruct (decide (k ≤ j)) as [|Hlt]; [done|].
  destruct Hnot. apply (Forall_lookup_1 _ _ j b Hrej).
  rewrite lookup_take_lt by lia. done.
Qed.

Lemma generate_outcome ds answers :
  match outcome_of (generate ds answers) with
  | Written content =>
      ∃ k a v, attempts (generate ds answers) = S k
        ∧ answers !! k = Some a ∧ accepted ds a v
        ∧ content = signed (generation v)
        ∧ Forall (rejected ds) (take k answers)
  | Crashed e =>
      ∃ k a, attempts (generate ds answers) = S k
        ∧ answers !! k = Some a ∧ attempt_result ds a = Raise e
        ∧ Forall (rejected ds) (take k answers)
  | Sampling =>
      attempts (generate ds answers) = length answers
      ∧ Forall (rejected ds) answers
  end.
Proof. apply retry_loop_outcome. lia. Qed.

Lemma generate_after_rejected ds earlier a later :
  Forall (rejected ds) earlier →
  (∃ e, attempt_result ds a = Raise e
        ∧ generate ds (earlier ++ a :: later)
          = Run (Crashed e)
                (concat (map (λ a, (iteration ds a).1) earlier)
                   ++ (iteration ds a).1)
                (S (length earlier)))
  ∨ (∃ v, accepted ds a v
          ∧ generate ds (earlier ++ a :: later)
            = Run (Written (signed (generation v)))
                  (concat (map (λ a, (iteration ds a).1) earlier)
                     ++ (iteration ds a).1)
                  (S (length earlier)))
  ∨ rejected ds a.
Proof.
  intros Hrej.
  destruct (retry_loop_rejected ds earlier Hrej 1000 None)
    as (breaks & last & Hb & Heq); [lia|].
  unfold generate. rewrite Heq.
  destruct (attempt_result ds a) as [v|e] eqn:Hr.
  - destruct (decide (18 < number_of_line_breaks v)) as [Hlt|Hle].
    + right; right. by exists v.
    + right; left. exists v. split; [split; [done|lia]|].
      rewrite (retry_loop_next _ _ _ _ _ v), retry_loop_stop by (done || lia).
      simpl. rewrite app_nil_r.
      destruct (attempt_result_Ok _ _ _ Hr) as (tr & _ & Ht).
      destruct (truncate_Ok _ _ Ht) as (_ & _ & -> & _).
      f_equal. lia.
  - left. exists e. split; [done|].
    rewrite (retry_loop_raise _ _ _ _ _ e) by done. simpl. f_equal. lia.
Qed.

(** C1: the loop is never left with a generation of more than 18 line
    breaks, and it is left at the first pass whose truncated completion has
    at most 18.  Whenever the file is written, the text is the signed
    generation of the last pass made, that generation has at most 18 line
    breaks and every pass before it was rejected; a pass that was made and
    meets the test is the last one; and an answer that meets the test, with
    every answer before it rejected, ends the loop there. *)
Theorem retry_loop_exits_at_first_accepted ds answers :
  (∀ content, outcome_of (generate ds answers) = Written content →
     ∃ k a v, attempts (generate ds answers) = S k
       ∧ answers !! k = Some a ∧ accepted ds a v
       ∧ content = signed (generation v)
       ∧ count (generation v) nl ≤ 18
       ∧ Forall (rejected ds) (take k answers))
  ∧ (∀ k a v,
       k < attempts (generate ds answers) →
       answers !! k = Some a → accepted ds a v →
       attempts (generate ds answers) = S k
       ∧ outcome_of (generate ds answers) = Written (signed (generation v)))
  ∧ (∀ k a v,
       answers !! k = Some a → accepted ds a v →
       Forall (rejected ds) (take k answers) →
       attempts (generate ds answers) = S k
       ∧ outcome_of (generate ds answers) = Written (signed (generation v))).
Proof.
  pose proof (generate_outcome ds answers) as Hout.
  split_and!.
  - intros content Hw. rewrite Hw in Hout.
    destruct Hout as (k & a & v & ? & ? & [Hv Hle] & ? & ?).
    exists k, a, v. split_and!; [done..| |done].
    destruct (attempt_result_Ok _ _ _ Hv) as (tr & _ & Ht).
    destruct (truncate_Ok _ _ Ht) as (_ & _ & _ & <-). done.
  - intros k a v Hk Ha Hacc.
    assert (¬ rejected ds a) as Hnot
      by (intros ?; by eapply rejected_not_accepted).
    destruct (outcome_of (generate ds answers)).
    + destruct Hout as (k' & a' & v' & Hatt & Ha' & Hacc' & -> & Hrej).
      pose proof (first_unrejected _ _ _ _ Hrej Ha' _ _ Ha Hnot).
      assert (k = k') as -> by lia. simplify_eq.
      destruct Hacc as [Hv _], Hacc' as [Hv' _]. rewrite Hv in Hv'.
      by simplify_eq.
    + destruct Hout as (k' & a' & Hatt & Ha' & He & Hrej).
      pose proof (first_unrejected _ _ _ _ Hrej Ha' _ _ Ha Hnot).
      assert (k = k') as -> by lia. simplify_eq.
      destruct Hacc as [Hv _]. congruence.
    + destruct Hout as [_ Hrej]. destruct Hnot.
      by apply (Forall_lookup_1 _ _ k a Hrej).
  - intros k a v Ha Hacc Hrej.
    rewrite <-(take_drop_middle answers k a Ha).
    destruct (generate_after_rejected ds (take k answers) a
                (drop (S k) answers) Hrej)
      as [(e & He & _)|[(v' & [Hv' _] & ->)|Hr]].
    + destruct Hacc as [Hv _]. congruence.
    + destruct Hacc as [Hv _]. rewrite Hv in Hv'. simplify_eq. simpl.
      split; [|done]. rewrite length_take. apply lookup_lt_Some in Ha. lia.
    + by destruct (rejected_not_accepted _ _ _ Hr Hacc).
Qed.

(** C4: for a completion in which END occurs, the generation kept is the
    completion up to and including the first END, [first_end] being where
    that END starts; the line breaks counted are those of this prefix (none
    of them in END itself), and it is this count the guard of the loop
    tests: at most 18 and the signed prefix is written, more and the pass is
    rejected. *)
Theorem generation_is_prefix_through_first_END ds a tr completion :
  sample_completion ds a = (tr, Ok completion) →
  (∃ pre post, completion = pre ++ lit "END" ++ post) →
  ∃ pre post,
    completion = pre ++ lit "END" ++ post
    ∧ (∀ pre' post',
         completion = pre' ++ lit "END" ++ post' → length pre ≤ length pre')
    ∧ iteration ds a
      = (tr, Ok (Vars completion (length pre) (pre ++ lit "END")
                      (count (pre ++ lit "END") nl)))
    ∧ count (pre ++ lit "END") nl = count pre nl
    ∧ (count pre nl ≤ 18 →
       ∀ later, generate ds (a :: later)
                = Run (Written (signed (pre ++ lit "END"))) tr 1)
    ∧ (18 < count pre nl → rejected ds a).
Proof.
  intros Hs (pre0 & post0 & Hocc).
  destruct (find_occurs _ _ _ _ Hocc) as (k & Hf & _).
  destruct (find_Some _ _ _ Hf) as (pre & post & Heq & Hlen & Hmin).
  exists pre, post.
  assert (take (k + 3) completion = pre ++ lit "END") as Htake.
  { rewrite Heq, app_assoc. apply take_app_length'.
    rewrite length_app, Hlen. done. }
  assert (count (pre ++ lit "END") nl = count pre nl) as Hcount.
  { rewrite count_app. assert (count (lit "END") nl = 0) as -> by done. lia. }
  assert (iteration ds a
          = (tr, Ok (Vars completion (length pre) (pre ++ lit "END")
                          (count (pre ++ lit "END") nl)))) as Hit.
  { unfold iteration. rewrite Hs. simpl. unfold truncate, index.
    rewrite Hf. simpl. by rewrite Htake, Hlen. }
  assert (attempt_result ds a
          = Ok (Vars completion (length pre) (pre ++ lit "END")
                     (count (pre ++ lit "END") nl))) as Hres.
  { unfold attempt_result. by rewrite Hit. }
  split_and!; [done| |done|done| |].
  - intros pre' post' Heq'. rewrite Hlen. by eapply Hmin.
  - intros Hle later. unfold generate.
    erewrite retry_loop_next; [|lia|exact Hres].
    rewrite retry_loop_stop by (cbn [number_of_line_breaks]; lia).
    cbn [outcome_of trace attempts first_end Gen.completion].
    rewrite Hit, app_nil_r. cbn [fst]. by rewrite Hlen, Htake.
  - intros Hlt. eexists. split; [exact Hres|].
    cbn [number_of_line_breaks]. lia.
Qed.

(** C6: a pass whose completion has no END raises [ValueError] at the
    index lookup, and the loop, having rejected the answers before it, ends
    there with the exception: one pass more than the rejected ones, the
    answers after it never asked for. *)
Theorem missing_END_crashes ds earlier a later tr completion :
  Forall (rejected ds) earlier →
  sample_completion ds a = (tr, Ok completion) →
  (∀ pre post, completion ≠ pre ++ lit "END" ++ post) →
  index completion (lit "END") = Raise ValueError
  ∧ iteration ds a = (tr, Raise ValueError)
  ∧ generate ds (earlier ++ a :: later)
    = Run (Crashed ValueError)
          (concat (map (λ a, (iteration ds a).1) earlier) ++ tr)
          (S (length earlier)).
Proof.
  intros Hrej Hs Hno.
  assert (find completion (lit "END") = None) as Hf.
  { destruct (find completion (lit "END")) as [k|] eqn:Hf; [|done].
    destruct (find_Some _ _ _ Hf) as (pre & post & Heq & _).
    by destruct (Hno pre post). }
  assert (iteration ds a = (tr, Raise ValueError)) as Hit.
  { unfold iteration. rewrite Hs. simpl. unfold truncate, index.
    by rewrite Hf. }
  split_and!; [unfold index; by rewrite Hf | done |].
  destruct (generate_after_rejected ds earlier a later Hrej)
    as [(e & He & ->)|[(v & [Hv _] & _)|(v & Hv & _)]];
    unfold attempt_result in *; rewrite Hit in *; simpl in *;
    by simplify_eq.
Qed.

Lemma generate_all_rejected ds answers :
  Forall (rejected ds) answers →
  generate ds answers
  = Run Sampling (concat (map (λ a, (iteration ds a).1) answers))
        (length answers).
Proof.
  intros Hrej.
  destruct (retry_loop_rejected ds answers Hrej 1000 None)
    as (breaks & last & Hb & Heq); [lia|].
  specialize (Heq []). rewrite app_nil_r in Heq.
  unfold generate. rewrite Heq, retry_loop_nil by done. simpl.
  rewrite app_nil_r. f_equal. lia.
Qed.

Lemma generate_decided ds earlier a later :
  Forall (rejected ds) earlier → ¬ rejected ds a →
  trace (generate ds (earlier ++ a :: later))
  = concat (map (λ a, (iteration ds a).1) (earlier ++ [a]))
  ∧ attempts (generate ds (earlier ++ a :: later)) = S (length earlier).
Proof.
  intros Hrej Hnot. rewrite map_app, concat_app. simpl. rewrite app_nil_r.
  destruct (generate_after_rejected ds earlier a later Hrej)
    as [(e & _ & ->)|[(v & _ & ->)|Hr]]; [done | done | by destruct Hnot].
Qed.

(** C7: every pass of the loop starts by loading the checkpoint, before the
    word is drawn and the sampler called, and the trace of a run is the
    events of its passes in order.  The passes are tied to the answers
    given: after n rejected answers and one that is not rejected (accepted,
    or raising) the loop has made n + 1 passes and loaded the checkpoint
    n + 1 times; after n answers all rejected it has made n passes and n
    loads; and with any answer at all the first pass is made, so the
    checkpoint is loaded at least once. *)
Theorem checkpoint_loaded_every_pass ds answers :
  trace (generate ds answers)
  = concat (map (λ a, (iteration ds a).1)
              (take (attempts (generate ds answers)) answers))
  ∧ attempts (generate ds answers) ≤ length answers
  ∧ (∀ a, ∃ rest,
       (iteration ds a).1 = LoadCheckpoint :: GetRandomWord (word a) :: rest
       ∧ (rest = [] ∨ ∃ x, rest = [Sample x (sampler a x)]))
  ∧ loads (trace (generate ds answers)) = attempts (generate ds answers)
  ∧ (∀ earlier a later,
       answers = earlier ++ a :: later →
       Forall (rejected ds) earlier → ¬ rejected ds a →
       attempts (generate ds answers) = S (length earlier)
       ∧ loads (trace (generate ds answers)) = S (length earlier)
       ∧ trace (generate ds answers)
         = concat (map (λ a, (iteration ds a).1) (earlier ++ [a])))
  ∧ (Forall (rejected ds) answers →
     attempts (generate ds answers) = length answers
     ∧ loads (trace (generate ds answers)) = length answers)
  ∧ (answers ≠ [] → 1 ≤ loads (trace (generate ds answers))).
Proof.
  destruct (retry_loop_trace ds answers 1000 None) as [Htr Hle].
  fold (generate ds answers) in Htr, Hle.
  assert (loads (trace (generate ds answers))
          = attempts (generate ds answers)) as Hloads.
  { rewrite Htr, loads_passes, length_take. lia. }
  split_and!; [done | done | apply iteration_trace | done | | |].
  - intros earlier a later -> Hrej Hnot.
    destruct (generate_decided ds earlier a later Hrej Hnot) as [Ht Ha].
    split_and!; [done | | done].
    rewrite Ht, loads_passes, length_app. simpl. lia.
  - intros Hrej. rewrite (generate_all_rejected _ _ Hrej). simpl.
    split; [done|]. apply loads_passes.
  - intros Hne. rewrite Hloads.
    pose proof (generate_outcome ds answers) as Hout.
    destruct (outcome_of (generate ds answers)).
    + destruct Hout as (k & _ & _ & -> & _). lia.
    + destruct Hout as (k & _ & -> & _). lia.
    + destruct Hout as [-> _]. destruct answers; [done | simpl; lia].
Qed.

(** C10: the encoding map has the characters of the corpus and no other, so
    a random word with a character the corpus lacks makes the prompt
    encoding raise [KeyError] (on the first character of the prompt that the
    corpus lacks) before anything is sampled, and the run ends with that
    exception. *)
Theorem unknown_character_crashes text bs earlier w f later c :
  Forall (rejected (CharDataset_init text bs)) earlier →
  c ∈ w → c ∉ text →
  stoi (CharDataset_init text bs) !! c = None
  ∧ ∃ c', c' ∈ context_of w ∧ (c' ∉ text)
      ∧ iteration (CharDataset_init text bs) (Attempt w f)
        = ([LoadCheckpoint; GetRandomWord w], Raise (KeyErrorChar c'))
      ∧ generate (CharDataset_init text bs) (earlier ++ Attempt w f :: later)
        = Run (Crashed (KeyErrorChar c'))
              (concat (map (λ a, (iteration (CharDataset_init text bs) a).1)
                         earlier)
                 ++ [LoadCheckpoint; GetRandomWord w])
              (S (length earlier)).
Proof.
  intros Hrej Hin Hnot.
  assert (stoi (CharDataset_init text bs) !! c = None) as Hc
    by (by apply stoi_None).
  split; [done|].
  destruct (encode_missing (CharDataset_init text bs) (context_of w) c)
    as (c' & Hin' & Hc' & Hm); [|done|].
  { unfold context_of. rewrite !elem_of_app. auto. }
  exists c'.
  assert (iteration (CharDataset_init text bs) (Attempt w f)
          = ([LoadCheckpoint; GetRandomWord w], Raise (KeyErrorChar c')))
    as Hit.
  { unfold iteration, sample_completion. cbn [word]. by rewrite Hm. }
  split_and!; [done | by apply (stoi_None text bs) | done |].
  destruct (generate_after_rejected _ earlier (Attempt w f) later Hrej)
    as [(e & He & ->)|[(v & [Hv _] & _)|(v & Hv & _)]];
    unfold attempt_result in *; rewrite Hit in *; simpl in *;
    by simplify_eq.
Qed.

End gen_claims.

(** ** The properties on the small corpus *)

Section demo.

Import Gen Demo.

(** Closed equations are settled by evaluation. *)
Ltac evaluate := vm_compute; repeat split.

Lemma long_rejected : rejected ds long.
Proof. eexists. split; [evaluate | vm_compute; lia]. Qed.

Lemma short_accepted :
  accepted ds short
    (Vars short_completion 23 short_generation 4).
Proof. split; [evaluate | vm_compute; lia]. Qed.

(** The example of the specification: a completion with 4 line breaks
    before END is accepted, one with more than 18 is resampled. *)
Example long_then_short :
  outcome_of (generate ds [long; short; endless])
  = Written (short_generation ++ [nl] ++ lit "Poetic AI")
  ∧ attempts (generate ds [long; short; endless]) = 2
  ∧ loads (trace (generate ds [long; short; endless])) = 2.
Proof. evaluate. Qed.

Example only_long :
  outcome_of (generate ds [long; long; long]) = Sampling
  ∧ attempts (generate ds [long; long; long]) = 3.
Proof. evaluate. Qed.

Lemma retry_loop_exits_at_first_accepted_witness :
  attempts (generate ds [long; short; endless]) = 2
  ∧ outcome_of (generate ds [long; short; endless])
    = Written (signed short_generation).
Proof.
  refine (proj2 (proj2 (retry_loop_exits_at_first_accepted ds
                          [long; short; endless]))
                1 short _ eq_refl short_accepted _).
  constructor; [exact long_rejected | constructor].
Defined.

Lemma checkpoint_loaded_every_pass_witness :
  attempts (generate ds [long; short; endless]) = 2
  ∧ loads (trace (generate ds [long; short; endless])) = 2
  ∧ trace (generate ds [long; short; endless])
    = concat (map (λ a, (iteration ds a).1) ([long] ++ [short])).
Proof.
  refine (proj1 (proj2 (proj2 (proj2 (proj2
            (checkpoint_loaded_every_pass ds [long; short; endless])))))
            [long] short [endless] eq_refl _ _).
  - constructor; [exact long_rejected | constructor].
  - intros Hr. exact (rejected_not_accepted _ _ _ Hr short_accepted).
Defined.

Lemma generation_is_prefix_through_first_END_witness :
  ∃ pre post,
    short_completion = pre ++ lit "END" ++ post
    ∧ iteration ds short
      = ((iteration ds short).1,
         Ok (Vars short_completion (length pre) (pre ++ lit "END")
                  (count (pre ++ lit "END") nl))).
Proof.
  assert (sample_completion ds short
          = ((iteration ds short).1, Ok short_completion)) as Hs
    by evaluate.
  assert (∃ pre post, short_completion = pre ++ lit "END" ++ post) as Hocc.
  { exists (lit "Poem Start" ++ [nl] ++ lit "cat" ++ [nl; nl]
            ++ lit "a line" ++ [nl]), ([nl] ++ lit "cat").
    evaluate. }
  destruct (generation_is_prefix_through_first_END ds short _ _ Hs Hocc)
    as (pre & post & Heq & _ & Hit & _).
  exists pre, post. split; [exact Heq | exact Hit].
Defined.

Lemma missing_END_crashes_witness :
  generate ds ([long] ++ endless :: [short])
  = Run (Crashed ValueError)
        (concat (map (λ a, (iteration ds a).1) [long])
           ++ (iteration ds endless).1)
        2.
Proof.
  assert (sample_completion ds endless
          = ((iteration ds endless).1,
             Ok (lit "Poem Start" ++ [nl] ++ lit "cat" ++ [nl; nl]
                 ++ lit "a line"))) as Hs
    by evaluate.
  refine (proj2 (proj2 (missing_END_crashes ds [long] endless [short] _ _
                          _ Hs _))).
  - constructor; [exact long_rejected | constructor].
  - apply find_None. evaluate.
Defined.

Lemma unknown_character_crashes_witness :
  ∃ c', (c' ∉ text)
    ∧ outcome_of (generate ds ([long] ++ dog :: [short]))
      = Crashed (KeyErrorChar c').
Proof.
  assert ("d"%char ∉ text) as Hnot.
  { apply (bool_decide_unpack _). evaluate. }
  assert ("d"%char ∈ lit "dog") as Hin by left.
  assert (Forall (rejected (CharDataset_init text 128)) [long]) as Hrej.
  { constructor; [exact long_rejected | constructor]. }
  destruct (proj2 (unknown_character_crashes text 128 [long] (lit "dog")
                     (says (lit "END")) [short] "d"%char Hrej Hin Hnot))
    as (c' & _ & Hc' & _ & Hgen).
  exists c'. split; [exact Hc' | exact (f_equal outcome_of Hgen)].
Defined.

Example dog_crashes :
  generate ds [long; dog; short]
  = Run (Crashed (KeyErrorChar "d"%char))
        ((iteration ds long).1 ++ [LoadCheckpoint; GetRandomWord (lit "dog")])
        2.
Proof. evaluate. Qed.

End demo.

(** ** The corpus builder: further properties *)

Section corpus_more.

Import Corpus.

Implicit Types folder file line title author : str.
Implicit Types rd : result (list str).
Implicit Types st : state.

Lemma getitem_raise {A} (l : list A) i e : getitem l i = Raise e → e = IndexError.
Proof. unfold getitem. destruct (l !! i); by intros [= <-]. Qed.

Lemma split_no_occurrence s sep :
  sep ≠ [] → (∀ pre post, s ≠ pre ++ sep ++ post) → split s sep = [s].
Proof.
  intros Hsep Hno. rewrite split_unfold by done.
  destruct (find s sep) as [k|] eqn:Hf; [|done].
  destruct (find_Some _ _ _ Hf) as (pre & post & Heq & _).
  by destruct (Hno pre post).
Qed.

(** The part of a string before the leftmost occurrence has none. *)
Lemma find_take s sep k :
  sep ≠ [] → find s sep = Some k → find (take k s) sep = None.
Proof.
  intros Hsep Hf. destruct (find (take k s) sep) as [j|] eqn:Hj; [|done].
  destruct (find_Some _ _ _ Hf) as (_ & _ & _ & _ & Hmin).
  destruct (find_Some _ _ _ Hj) as (pre & post & Heq & Hlen & _).
  assert (s = pre ++ sep ++ (post ++ drop k s)) as Hs.
  { rewrite <-(take_drop k s) at 1. rewrite Heq. by rewrite <-!app_assoc. }
  apply Hmin in Hs.
  assert (length (take k s) ≤ k) as Hle by (rewrite length_take; lia).
  rewrite Heq, !length_app in Hle.
  destruct sep; [done|]. simpl in Hle. lia.
Qed.

Lemma split_head s sep :
  sep ≠ [] → ∃ piece rest, split s sep = piece :: rest ∧ find piece sep = None.
Proof.
  intros Hsep. rewrite split_unfold by done.
  destruct (find s sep) as [k|] eqn:Hf.
  - eexists _, _. split; [done|]. by apply find_take.
  - by exists s, [].
Qed.

Lemma find_char_None s c : find s [c] = None → c ∉ s.
Proof.
  intros Hf Hin. apply list_elem_of_split in Hin as (pre & post & ->).
  by apply (find_None _ _ Hf pre post).
Qed.

Lemma space_out_fold (P : ascii → Prop) `{!∀ c, Decision (P c)} s acc :
  ¬ P " "%char →
  filter P (foldl (λ new_file_name c,
                     if isupper c then new_file_name ++ lit " " ++ [c]
                     else new_file_name ++ [c]) acc s)
  = filter P acc ++ filter P s.
Proof.
  intros Hsp. revert acc. induction s as [|c s IH]; intros acc; simpl.
  - by rewrite app_nil_r.
  - rewrite IH. destruct (isupper c).
    + rewrite !filter_app, (filter_cons_False _ _ _ Hsp).
      change (c :: s) with ([c] ++ s). by rewrite filter_app, <-app_assoc.
    + change (c :: s) with ([c] ++ s). by rewrite !filter_app, <-app_assoc.
Qed.

Lemma space_out_fold_length s acc :
  length (foldl (λ new_file_name c,
                   if isupper c then new_file_name ++ lit " " ++ [c]
                   else new_file_name ++ [c]) acc s)
  = length acc + length s + length (filter (λ c, isupper c = true) s).
Proof.
  revert acc. induction s as [|c s IH]; intros acc; simpl; [lia|].
  rewrite IH. destruct (isupper c) eqn:Hc.
  - rewrite filter_cons_True by done. rewrite !length_app. simpl. lia.
  - rewrite filter_cons_False by congruence. rewrite !length_app. simpl. lia.
Qed.

Lemma space_out_fold_prefix s acc :
  ∃ t, foldl (λ new_file_name c,
                if isupper c then new_file_name ++ lit " " ++ [c]
                else new_file_name ++ [c]) acc s
       = acc ++ t.
Proof.
  revert acc. induction s as [|c s IH]; intros acc; simpl.
  - exists []. by rewrite app_nil_r.
  - destruct (isupper c).
    + edestruct IH as [t ->]. eexists. by rewrite <-app_assoc.
    + edestruct IH as [t ->]. eexists. by rewrite <-app_assoc.
Qed.

Lemma space_out_cons c s :
  space_out (c :: s)
  = Ok (foldl (λ new_file_name c,
                 if isupper c then new_file_name ++ lit " " ++ [c]
                 else new_file_name ++ [c]) [c] s).
Proof. reflexivity. Qed.

(** [space_out] raises on the empty name; on any other it only inserts
    spaces, one for every upper-case character after the first, and keeps
    the first character in front. *)
Theorem space_out_inserts_spaces :
  space_out [] = Raise IndexError
  ∧ ∀ c s, ∃ r,
      space_out (c :: s) = Ok r
      ∧ filter (λ x, x ≠ " "%char) r = filter (λ x, x ≠ " "%char) (c :: s)
      ∧ length r
        = length (c :: s) + length (filter (λ x, isupper x = true) s)
      ∧ r !! 0 = Some c.
Proof.
  split; [done|]. intros c s. rewrite space_out_cons.
  eexists. split_and!.
  - reflexivity.
  - rewrite space_out_fold by (intros Hne; by apply Hne).
    change (c :: s) with ([c] ++ s). by rewrite filter_app.
  - rewrite space_out_fold_length. simpl. lia.
  - destruct (space_out_fold_prefix s [c]) as [t ->]. done.
Qed.

(** [parse_name] gives a title and an author or raises [IndexError]: no
    other exception leaves it. *)
Theorem parse_name_fails_with_IndexError folder file :
  (∃ title author, parse_name folder file = Ok (title, author))
  ∨ parse_name folder file = Raise IndexError.
Proof.
  destruct (parse_name folder file) as [[title author]|e] eqn:Hp; [eauto|].
  right. f_equal. revert Hp.
  unfold parse_name, space_out, mbind, result_bind, Py.bind. cbv beta zeta.
  repeat match goal with
         | |- context [getitem ?l ?i] =>
             let H := fresh "Hg" in
             destruct (getitem l i) eqn:H;
             [|apply getitem_raise in H; by intros [= <-]]
         end.
  done.
Qed.

(** A file whose name does not contain the marker of its folder is skipped
    with the console message, whatever the file holds. *)
Theorem name_without_marker_skipped folder file :
  (∀ pre post, file ≠ pre ++ (capitalize folder ++ lit "Poems") ++ post) →
  parse_name folder file = Raise IndexError
  ∧ ∀ rd st,
      process_file folder file rd st
      = State (mega_string st) (mini_string st) (console st ++ [lit "yikes"]).
Proof.
  intros Hno.
  assert (parse_name folder file = Raise IndexError) as Hp.
  { unfold parse_name. rewrite split_no_occurrence; [done| |done].
    intros Hnil. by apply app_eq_nil in Hnil as [_ ?]. }
  split; [done|]. intros rd st. unfold process_file. by rewrite Hp.
Qed.

Lemma name_without_marker_skipped_witness :
  parse_name (lit "nature") (lit "poem.txt") = Raise IndexError.
Proof.
  refine (proj1 (name_without_marker_skipped (lit "nature") (lit "poem.txt") _)).
  apply find_None. vm_compute. reflexivity.
Defined.

(** The steps of a parse that succeeds. *)
Lemma parse_name_Ok folder file title author :
  parse_name folder file = Ok (title, author) →
  ∃ file_name new_file_name tail stem,
    getitem (split file (capitalize folder ++ lit "Poems")) 1 = Ok file_name
    ∧ space_out file_name = Ok new_file_name
    ∧ getitem (split new_file_name (lit "Poemby")) 0 = Ok title
    ∧ getitem (split new_file_name (lit "Poemby")) 1 = Ok tail
    ∧ getitem (split tail (lit ".")) 0 = Ok stem
    ∧ author = drop 1 stem.
Proof.
  unfold parse_name, mbind, result_bind, Py.bind. cbv beta.
  destruct (getitem (split file _) 1) as [file_name|] eqn:H1; [|done].
  destruct (space_out file_name) as [new_file_name|] eqn:H2; [|done].
  cbv zeta.
  destruct (getitem (split new_file_name _) 0) as [title'|] eqn:H3; [|done].
  destruct (getitem (split new_file_name _) 1) as [tail|] eqn:H4; [|done].
  destruct (getitem (split tail _) 0) as [stem|] eqn:H5; [|done].
  intros [= <- <-]. by exists file_name, new_file_name, tail, stem.
Qed.

(** A name that parses contains the marker of its folder; the title has no
    [Poemby] in it and the author no dot. *)
Theorem parsed_name_shape folder file title author :
  parse_name folder file = Ok (title, author) →
  (∃ pre post, file = pre ++ (capitalize folder ++ lit "Poems") ++ post)
  ∧ (∀ pre post, title ≠ pre ++ lit "Poemby" ++ post)
  ∧ "."%char ∉ author.
Proof.
  intros (file_name & new_file_name & tail & stem
          & H1 & H2 & H3 & H4 & H5 & ->)%parse_name_Ok.
  assert (capitalize folder ++ lit "Poems" ≠ []) as Hsep.
  { intros Hnil. by apply app_eq_nil in Hnil as [_ ?]. }
  split_and!.
  - rewrite split_unfold in H1 by done.
    destruct (find file _) as [k|] eqn:Hf; [|done].
    destruct (find_Some _ _ _ Hf) as (pre & post & ? & _). eauto.
  - destruct (split_head new_file_name (lit "Poemby"))
      as (piece & rest & Hs & Hf); [done|].
    rewrite Hs in H3. injection H3 as ->. by apply find_None.
  - destruct (split_head tail (lit ".")) as (piece & rest & Hs & Hf); [done|].
    rewrite Hs in H5. injection H5 as ->.
    intros Hin. apply (find_char_None _ _ Hf).
    apply list_elem_of_lookup in Hin as [i Hi]. rewrite lookup_drop in Hi.
    by eapply list_elem_of_lookup_2.
Qed.

Lemma parsed_name_shape_witness :
  "."%char ∉ lit " Jane Doe".
Proof.
  refine (proj2 (proj2 (parsed_name_shape (lit "nature")
            (lit "NaturePoemsTheOldCatPoemby JaneDoe.txt")
            (lit "The Old Cat ") (lit " Jane Doe") _))).
  vm_compute. reflexivity.
Defined.

Lemma length_reflow_step line i :
  length (reflow_step line i) = S (length line).
Proof.
  unfold reflow_step. rewrite !length_app, length_take, length_drop.
  simpl. lia.
Qed.

Lemma length_reflow_steps idx line :
  length (foldl reflow_step line idx) = length line + length idx.
Proof.
  revert line. induction idx as [|i idx IH]; intros line; simpl; [lia|].
  rewrite IH, length_reflow_step. lia.
Qed.

(** A cut leaves what is before it as it was. *)
Lemma lookup_reflow_step_lt line i p :
  p < i * 60 → i * 60 ≤ length line → reflow_step line i !! p = line !! p.
Proof.
  intros Hp Hi. unfold reflow_step.
  rewrite lookup_app_l by (rewrite length_take; lia).
  by rewrite lookup_take_lt.
Qed.

Lemma lookup_reflow_step_eq line i :
  i * 60 ≤ length line → reflow_step line i !! (i * 60) = Some nl.
Proof.
  intros Hi. unfold reflow_step. apply list_lookup_middle.
  rewrite length_take. lia.
Qed.

Lemma lookup_reflow_steps_lt idx line p :
  Forall (λ i, p < i * 60 ∧ i * 60 ≤ length line) idx →
  foldl reflow_step line idx !! p = line !! p.
Proof.
  revert line. induction idx as [|i idx IH]; intros line Hall; simpl; [done|].
  apply Forall_cons in Hall as [[Hp Hi] Hall].
  rewrite IH; [by apply lookup_reflow_step_lt|].
  eapply Forall_impl; [exact Hall|]. simpl. intros j [? ?].
  rewrite length_reflow_step. lia.
Qed.

(** The reflowed line: its length, where its line feeds are, and that its
    first 60 characters are those of the line. *)
Theorem reflow_breaks line :
  length (reflow line) = length line + (length line / 60 - 1)
  ∧ (∀ i, 1 ≤ i < length line / 60 → reflow line !! (i * 60) = Some nl)
  ∧ (∀ p, p < 60 → reflow line !! p = line !! p).
Proof.
  pose proof (Nat.Div0.mul_div_le (length line) 60) as Hq.
  split_and!.
  - unfold reflow. by rewrite length_reflow_steps, length_seq.
  - intros i [Hi1 Hiq]. unfold reflow.
    set (q := length line / 60) in *.
    replace (q - 1) with ((i - 1) + (1 + (q - 1 - i))) by lia.
    rewrite !seq_app, !foldl_app. simpl.
    replace (S (i - 1)) with i by lia.
    rewrite lookup_reflow_steps_lt.
    + apply lookup_reflow_step_eq. rewrite length_reflow_steps. lia.
    + apply Forall_seq. intros j Hj.
      rewrite length_reflow_step, length_reflow_steps. lia.
  - intros p Hp. unfold reflow. apply lookup_reflow_steps_lt.
    apply Forall_seq. intros j Hj. lia.
Qed.

Lemma foldl_reflow_concat lines acc :
  foldl (λ m line, m ++ reflow line) acc lines
  = acc ++ concat (map reflow lines).
Proof.
  revert acc. induction lines as [|line lines IH]; intros acc; simpl.
  - by rewrite app_nil_r.
  - by rewrite IH, <-app_assoc.
Qed.

(** A file whose name parses and that has at most 20 lines adds exactly one
    block: the start marker, the title, the reflowed lines, the end marker
    and the author. *)
Theorem kept_poem_block folder file title author lines st :
  parse_name folder file = Ok (title, author) →
  length lines ≤ 20 →
  contribution folder file (Ok lines) = block_of title author lines
  ∧ process_file folder file (Ok lines) st
    = State (mega_string st ++ block_of title author lines)
            (Some (block_of title author lines)) (console st).
Proof.
  intros Hp Hlen.
  assert (poem_block title author (Ok lines)
          = Ok (Block (block_of title author lines))) as Hb.
  { unfold poem_block, block_of.
    change (Ok lines ≫= ?k) with (k lines). cbv beta.
    destruct (20 <? length lines) eqn:Hlt; [apply Nat.ltb_lt in Hlt; lia|].
    rewrite foldl_reflow_concat. by rewrite <-!app_assoc. }
  unfold contribution, process_file. by rewrite Hp, Hb.
Qed.

Lemma kept_poem_block_witness :
  contribution (lit "nature") (lit "NaturePoemsTheOldCatPoemby JaneDoe.txt")
    (Ok (replicate 20 (lit "a line" ++ [nl])))
  = block_of (lit "The Old Cat ") (lit " Jane Doe")
      (replicate 20 (lit "a line" ++ [nl])).
Proof.
  refine (proj1 (kept_poem_block (lit "nature")
            (lit "NaturePoemsTheOldCatPoemby JaneDoe.txt")
            (lit "The Old Cat ") (lit " Jane Doe")
            (replicate 20 (lit "a line" ++ [nl])) initial _ _)).
  - vm_compute. reflexivity.
  - vm_compute. lia.
Defined.

Lemma process_folders_result all_folders st :
  match process_folders all_folders st with
  | Ok st' =>
      mega_string st' = mega_string st ++ tree_text all_folders
      ∧ Forall (λ d : dir, ∃ all_files, d.2 = Ok all_files) all_folders
  | Raise e =>
      ∃ before folder after,
        all_folders = before ++ (folder, Raise e) :: after
        ∧ Forall (λ d : dir, ∃ all_files, d.2 = Ok all_files) before
  end.
Proof.
  revert st. induction all_folders as [|[folder [all_files|e]] rest IH];
    intros st; simpl.
  - unfold tree_text. simpl. by rewrite app_nil_r.
  - specialize (IH (process_folder folder all_files st)).
    destruct (process_folders rest _) as [st'|e].
    + destruct IH as [-> Hall]. split.
      * rewrite process_folder_mega. unfold tree_text, folder_text. simpl.
        by rewrite <-app_assoc.
      * constructor; [by eexists | done].
    + destruct IH as (before & f & after & -> & Hall).
      exists ((folder, Ok all_files) :: before), f, after. split; [done|].
      constructor; [by eexists | done].
  - exists [], folder, rest. by split.
Qed.

(** The whole script: when every folder can be listed, the file written
    holds the blocks of the files in listing order, folder after folder,
    and it is the last thing printed; the first folder that cannot be listed
    ends the script with its exception, nothing written. *)
Theorem main_result all_folders :
  match main all_folders with
  | Ok (printed, written) =>
      written = tree_text all_folders
      ∧ last printed = Some written
      ∧ Forall (λ d : dir, ∃ all_files, d.2 = Ok all_files) all_folders
  | Raise e =>
      ∃ before folder after,
        all_folders = before ++ (folder, Raise e) :: after
        ∧ Forall (λ d : dir, ∃ all_files, d.2 = Ok all_files) before
  end.
Proof.
  unfold main. pose proof (process_folders_result all_folders initial) as Hr.
  destruct (process_folders all_folders initial) as [st'|e]; simpl; [|done].
  destruct Hr as [-> Hall]. split_and!; [done | apply last_snoc | done].
Qed.

Lemma process_file_console folder file rd st :
  console (process_file folder file rd st)
  = console st ++ (if name_parses folder file then [] else [lit "yikes"]).
Proof.
  unfold process_file, name_parses.
  destruct (parse_name folder file) as [[title author]|e]; [|done].
  destruct (poem_block title author rd) as [[|mini]|e]; simpl;
    by rewrite app_nil_r.
Qed.

(** While a folder is processed the console gets one message for every
    file whose name does not parse, and nothing else. *)
Theorem console_counts_unparsed folder all_files st :
  console (process_folder folder all_files st)
  = console st
    ++ replicate
         (length (filter (λ f, name_parses folder f.1 = false) all_files))
         (lit "yikes").
Proof.
  unfold process_folder. revert st.
  induction all_files as [|[file rd] all_files IH]; intros st; simpl.
  - by rewrite app_nil_r.
  - rewrite IH, process_file_console. simpl.
    destruct (name_parses folder file) eqn:Hn.
    + rewrite filter_cons_False by (simpl; congruence). by rewrite app_nil_r.
    + rewrite filter_cons_True by done. simpl. by rewrite <-app_assoc.
Qed.

End corpus_more.

(** ** The character tables: facts *)

Section table_facts.

Import Gen.

Implicit Types text : str.

(** Filling a dict from pairs with distinct keys: what a key maps to. *)
Lemma dict_fill_lookup {K V P} `{Countable K} (f : P → K) (g : P → V)
    (l : list P) (d : gmap K V) k v :
  NoDup (f <$> l) →
  foldl (λ d p, <[f p := g p]> d) d l !! k = Some v
  ↔ (∃ p, p ∈ l ∧ f p = k ∧ g p = v) ∨ ((k ∉ f <$> l) ∧ d !! k = Some v).
Proof.
  revert d. induction l as [|p l IH]; intros d Hnd; simpl.
  - split.
    + intros ?. right. split; [apply not_elem_of_nil | done].
    + intros [(p & Hp & _)|[_ ?]]; [by apply elem_of_nil in Hp | done].
  - apply NoDup_cons in Hnd as [Hp Hnd].
    rewrite (IH _ Hnd), lookup_insert_Some. split.
    + intros [(q & Hq & ? & ?)|[Hk [[? ?]|[? ?]]]].
      * left. exists q. split_and!; [by right | done..].
      * left. exists p. split_and!; [by left | done..].
      * right. split; [|done]. rewrite not_elem_of_cons. done.
    + intros [(q & Hq & Hfq & Hgq)|[Hk ?]].
      * apply elem_of_cons in Hq as [->|Hq].
        -- right. subst. split; [done|]. by left.
        -- left. by exists q.
      * apply not_elem_of_cons in Hk as [? ?]. right. split; [done|].
        right. done.
Qed.

Lemma elem_of_enumerate {A} (l : list A) i x :
  (i, x) ∈ enumerate l ↔ l !! i = Some x.
Proof.
  unfold enumerate. rewrite elem_of_lookup_imap. split.
  - by intros (j & y & [= -> ->] & ?).
  - intros ?. by exists i, x.
Qed.

Lemma NoDup_enumerate_fst {A} (l : list A) : NoDup (enumerate l).*1.
Proof.
  apply NoDup_fmap_fst.
  - intros i x y Hx%elem_of_enumerate Hy%elem_of_enumerate. congruence.
  - apply NoDup_alt. intros j1 j2 [i x] H1 H2.
    unfold enumerate in *. rewrite list_lookup_imap in H1, H2.
    destruct (l !! j1), (l !! j2); simplify_eq/=. done.
Qed.

(** The two tables of the dataset are the sorted character list read in
    the two directions. *)
Lemma stoi_lookup text bs c i :
  stoi (CharDataset_init text bs) !! c = Some i
  ↔ sorted_chars text !! i = Some c.
Proof.
  simpl.
  rewrite (dict_fill_lookup snd fst)
    by (rewrite snd_enumerate; apply sorted_chars_NoDup).
  rewrite lookup_empty. split.
  - intros [([j x] & Hp & ? & ?)|[_ ?]]; [|done]. simplify_eq/=.
    by apply elem_of_enumerate.
  - intros Hi. left. exists (i, c). by rewrite elem_of_enumerate.
Qed.

Lemma itos_lookup text bs i :
  itos (CharDataset_init text bs) !! i = sorted_chars text !! i.
Proof.
  apply option_eq. intros c. simpl.
  rewrite (dict_fill_lookup fst snd) by apply NoDup_enumerate_fst.
  rewrite lookup_empty. split.
  - intros [([j x] & Hp & ? & ?)|[_ ?]]; [|done]. simplify_eq/=.
    by apply elem_of_enumerate.
  - intros Hi. left. exists (i, c). by rewrite elem_of_enumerate.
Qed.

Lemma mapM_Ok {A B} (f : A → result B) l k :
  mapM f l = Ok k ↔ Forall2 (λ x y, f x = Ok y) l k.
Proof.
  revert k. induction l as [|x l IH]; intros k; simpl.
  - split; [intros [= <-]; constructor | by inversion 1].
  - unfold mbind, result_bind, Py.bind.
    destruct (f x) as [y|e] eqn:Hx.
    + destruct (mapM f l) as [k'|e].
      * split.
        -- intros [= <-]. constructor; [done|]. by apply IH.
        -- inversion 1 as [|???? Hy Hl]; subst. apply IH in Hl.
           rewrite Hx in Hy. by simplify_eq.
      * split; [done|]. inversion 1 as [|???? Hy Hl]; subst.
        by apply IH in Hl.
    + split; [done|]. inversion 1 as [|???? Hy Hl]; subst. congruence.
Qed.

Lemma mapM_Raise {A B} (f : A → result B) l e :
  mapM f l = Raise e → ∃ x, x ∈ l ∧ f x = Raise e.
Proof.
  induction l as [|x l IH]; simpl; [done|].
  unfold mbind, result_bind, Py.bind.
  destruct (f x) as [y|e'] eqn:Hx.
  - destruct (mapM f l) as [k'|e'']; [done|]. intros [= ->].
    destruct IH as (x' & ? & ?); [done|]. exists x'. split; [by right|done].
  - intros [= ->]. exists x. split; [by left|done].
Qed.

Lemma stoi_at_Ok ds c i : stoi_at ds c = Ok i ↔ stoi ds !! c = Some i.
Proof. unfold stoi_at. destruct (stoi ds !! c); split; congruence. Qed.

Lemma itos_at_Ok ds i c : itos_at ds i = Ok c ↔ itos ds !! i = Some c.
Proof. unfold itos_at. destruct (itos ds !! i); split; congruence. Qed.

Lemma stoi_at_Raise ds c e :
  stoi_at ds c = Raise e → e = KeyErrorChar c ∧ stoi ds !! c = None.
Proof. unfold stoi_at. destruct (stoi ds !! c); [done|]. by intros [= <-]. Qed.

Lemma itos_at_Raise ds i e :
  itos_at ds i = Raise e → e = KeyErrorInt i ∧ itos ds !! i = None.
Proof. unfold itos_at. destruct (itos ds !! i); [done|]. by intros [= <-]. Qed.

Lemma tables_inverse text bs c i :
  stoi (CharDataset_init text bs) !! c = Some i
  ↔ itos (CharDataset_init text bs) !! i = Some c.
Proof. by rewrite stoi_lookup, itos_lookup. Qed.

Lemma encode_decode text bs (s : str) (x : list nat) :
  mapM (stoi_at (CharDataset_init text bs)) s = Ok x
  ↔ mapM (itos_at (CharDataset_init text bs)) x = Ok s.
Proof.
  rewrite !mapM_Ok, <-Forall2_flip.
  split; intros Hall; (eapply Forall2_impl; [exact Hall|]);
    intros i c; unfold flip;
    by rewrite stoi_at_Ok, itos_at_Ok, tables_inverse.
Qed.

Lemma encode_corpus text bs (s : str) :
  (∀ c, c ∈ s → c ∈ text) →
  ∃ x, mapM (stoi_at (CharDataset_init text bs)) s = Ok x.
Proof.
  intros Hs. apply encode_defined. intros c Hc.
  apply not_eq_None_Some. rewrite stoi_None. intros Hn. by apply Hn, Hs.
Qed.

#[local] Instance char_le_trans : Transitive char_le.
Proof. intros a b c. unfold char_le. lia. Qed.

Lemma nat_of_ascii_inj a b : nat_of_ascii a = nat_of_ascii b → a = b.
Proof.
  intros Heq. rewrite <-(ascii_nat_embedding a), <-(ascii_nat_embedding b).
  by rewrite Heq.
Qed.

(** Later in the table means a larger character code. *)
Lemma sorted_chars_lt text i j a b :
  sorted_chars text !! i = Some a → sorted_chars text !! j = Some b →
  i < j → nat_of_ascii a < nat_of_ascii b.
Proof.
  intros Ha Hb Hij.
  assert (char_le a b) as Hle.
  { pose proof (StronglySorted_merge_sort char_le
                  (elements (list_to_set text : gset ascii))) as Hs.
    fold (sorted_chars text) in Hs.
    rewrite <-(take_drop j (sorted_chars text)) in Hs.
    eapply StronglySorted_app_1_elem_of; [exact Hs| |].
    - apply list_elem_of_lookup. exists i. by rewrite lookup_take_lt.
    - apply list_elem_of_lookup. exists 0. by rewrite lookup_drop, Nat.add_0_r. }
  assert (a ≠ b) as Hne.
  { intros ->. pose proof (NoDup_lookup _ _ _ _ (sorted_chars_NoDup text) Ha Hb).
    lia. }
  unfold char_le in Hle.
  destruct (decide (nat_of_ascii a = nat_of_ascii b)) as [Heq|]; [|lia].
  by apply nat_of_ascii_inj in Heq.
Qed.

End table_facts.

(** ** The dataset: further properties *)

Section dataset_more.

Import Gen.

Implicit Types text : str.

(** The two tables are inverse to each other: a character has the index
    at which the other table has the character. *)
Theorem stoi_itos_inverse text bs c i :
  (stoi (CharDataset_init text bs) !! c = Some i
   ↔ itos (CharDataset_init text bs) !! i = Some c)
  ∧ (stoi_at (CharDataset_init text bs) c = Ok i
     ↔ itos_at (CharDataset_init text bs) i = Ok c).
Proof.
  split; [apply tables_inverse|].
  rewrite stoi_at_Ok, itos_at_Ok. apply tables_inverse.
Qed.

(** The encoding table has the characters of the corpus, the decoding table
    the indices below [vocab_size]; every index given out is below
    [vocab_size], which is at most the length of the corpus. *)
Theorem table_domains text bs :
  (∀ c, is_Some (stoi (CharDataset_init text bs) !! c) ↔ c ∈ text)
  ∧ (∀ i, is_Some (itos (CharDataset_init text bs) !! i)
          ↔ i < vocab_size (CharDataset_init text bs))
  ∧ (∀ c i, stoi (CharDataset_init text bs) !! c = Some i →
            i < vocab_size (CharDataset_init text bs))
  ∧ vocab_size (CharDataset_init text bs) ≤ length text.
Proof.
  split_and!.
  - intros c. rewrite <-not_eq_None_Some, stoi_None.
    destruct (decide (c ∈ text)); tauto.
  - intros i. rewrite itos_lookup. apply lookup_lt_is_Some.
  - intros c i Hi%stoi_lookup. by apply lookup_lt_Some in Hi.
  - change (vocab_size (CharDataset_init text bs))
      with (length (sorted_chars text)).
    apply submseteq_length, NoDup_submseteq.
    + exact (sorted_chars_NoDup text).
    + intros c. by rewrite elem_of_sorted_chars.
Qed.

(** The indices follow the character codes: of two corpus characters the
    one with the smaller code has the smaller index. *)
Theorem stoi_order text bs c1 c2 i1 i2 :
  stoi (CharDataset_init text bs) !! c1 = Some i1 →
  stoi (CharDataset_init text bs) !! c2 = Some i2 →
  i1 < i2 ↔ nat_of_ascii c1 < nat_of_ascii c2.
Proof.
  intros H1%stoi_lookup H2%stoi_lookup. split.
  - by apply (sorted_chars_lt text i1 i2).
  - intros Hlt. destruct (decide (i1 < i2)) as [|Hge]; [done|].
    destruct (decide (i1 = i2)) as [->|Hne].
    + rewrite H1 in H2. simplify_eq. lia.
    + pose proof (sorted_chars_lt text i2 i1 c2 c1 H2 H1). lia.
Qed.

Lemma stoi_order_witness :
  7 < 8 ↔ nat_of_ascii "a" < nat_of_ascii "c".
Proof.
  refine (stoi_order Demo.text 128 "a"%char "c"%char 7 8 _ _);
    vm_compute; reflexivity.
Defined.

(** Encoding and decoding are inverse: a string encodes to a token list
    exactly when the token list decodes to the string. *)
Theorem encode_decode_round_trip text bs (s : str) (x : list nat) :
  mapM (stoi_at (CharDataset_init text bs)) s = Ok x
  ↔ mapM (itos_at (CharDataset_init text bs)) x = Ok s.
Proof. apply encode_decode. Qed.

(** [__getitem__] inside the range [__len__] gives: two token lists of
    [block_size] items, the first decoding to the [block_size] characters
    at [idx], the second to those one further on, so that the second is the
    first shifted by one. *)
Theorem getitem_in_range text bs idx :
  (Z.of_nat idx < CharDataset_len (CharDataset_init text bs))%Z →
  ∃ x y,
    CharDataset_getitem (CharDataset_init text bs) idx = Ok (x, y)
    ∧ length x = bs ∧ length y = bs
    ∧ mapM (itos_at (CharDataset_init text bs)) x
      = Ok (take bs (drop idx text))
    ∧ mapM (itos_at (CharDataset_init text bs)) y
      = Ok (take bs (drop (S idx) text))
    ∧ drop 1 x = take (bs - 1) y.
Proof.
  unfold CharDataset_len, CharDataset_getitem.
  cbn [data block_size CharDataset_init]. intros Hidx.
  destruct (encode_corpus text bs (take (bs + 1) (drop idx text)))
    as [dix Hdix].
  { intros c Hc. by apply (subseteq_drop idx text), (subseteq_take (bs + 1)). }
  rewrite Hdix. change (Ok dix ≫= ?k) with (k dix). cbv beta.
  pose proof (proj1 (encode_decode _ _ _ _) Hdix) as Hdec.
  apply mapM_Ok in Hdec.
  assert (length dix = bs + 1) as Hlen.
  { rewrite (Forall2_length _ _ _ Hdec), length_take, length_drop. lia. }
  exists (take (length dix - 1) dix), (drop 1 dix).
  replace (length dix - 1) with bs by lia.
  split_and!.
  - done.
  - rewrite length_take. lia.
  - rewrite length_drop. lia.
  - apply mapM_Ok. apply (Forall2_take _ _ _ bs) in Hdec.
    rewrite take_take in Hdec. by replace (bs `min` (bs + 1)) with bs in Hdec by lia.
  - apply mapM_Ok. apply (Forall2_drop _ _ _ 1) in Hdec.
    replace (bs + 1) with (1 + bs) in Hdec by lia.
    rewrite <-take_drop_commute, drop_drop in Hdec.
    by replace (idx + 1) with (S idx) in Hdec by lia.
  - destruct bs as [|bs]; [by rewrite take_0|].
    replace (S bs - 1) with bs by lia. by rewrite take_drop_commute.
Qed.

Lemma getitem_in_range_witness :
  ∃ x y, CharDataset_getitem (CharDataset_init (lit "hello") 4) 0 = Ok (x, y)
         ∧ length x = 4 ∧ length y = 4.
Proof.
  destruct (getitem_in_range (lit "hello") 4 0) as (x & y & Hg & Hx & Hy & _).
  - vm_compute. reflexivity.
  - exists x, y. split_and!; [exact Hg | exact Hx | exact Hy].
Defined.

(** [__getitem__] raises at no index: the characters it encodes are corpus
    characters.  Its two lists have the same length, at most [block_size];
    past the end of the data both are empty. *)
Theorem getitem_never_raises text bs idx :
  ∃ x y,
    CharDataset_getitem (CharDataset_init text bs) idx = Ok (x, y)
    ∧ length x = length y ∧ length x ≤ bs
    ∧ (length text ≤ idx → x = [] ∧ y = []).
Proof.
  unfold CharDataset_getitem. cbn [data block_size CharDataset_init].
  destruct (encode_corpus text bs (take (bs + 1) (drop idx text)))
    as [dix Hdix].
  { intros c Hc. by apply (subseteq_drop idx text), (subseteq_take (bs + 1)). }
  rewrite Hdix. change (Ok dix ≫= ?k) with (k dix). cbv beta.
  apply mapM_Ok in Hdix.
  pose proof (Forall2_length _ _ _ Hdix) as Hlen.
  rewrite length_take, length_drop in Hlen.
  exists (take (length dix - 1) dix), (drop 1 dix). split_and!.
  - done.
  - rewrite length_take, length_drop. lia.
  - rewrite length_take. lia.
  - intros Hidx. assert (length dix = 0) as Hnil%nil_length_inv by lia.
    by subst.
Qed.

End dataset_more.


(** ** The generation loop: further properties *)

Section loop_more.

Import Gen.

Implicit Types ds : CharDataset.
Implicit Types a : attempt.
Implicit Types answers more : list attempt.

(** The sampler is called in a pass exactly when every character of the
    prompt is a corpus character: then the trace of the pass has its one
    [Sample] event, whose input decodes to the prompt and whose output is
    what the sampler returns for it; otherwise the pass ends after the word
    is drawn, with no [Sample] event. *)
Theorem sampler_gets_the_prompt text bs a :
  ((∀ c, c ∈ context_of (word a) → c ∈ text)
   ↔ ∃ x y, Sample x y ∈ (sample_completion (CharDataset_init text bs) a).1)
  ∧ (∀ x y,
       Sample x y ∈ (sample_completion (CharDataset_init text bs) a).1 →
       mapM (stoi_at (CharDataset_init text bs)) (context_of (word a)) = Ok x
       ∧ mapM (itos_at (CharDataset_init text bs)) x
         = Ok (context_of (word a))
       ∧ y = sampler a x
       ∧ (sample_completion (CharDataset_init text bs) a).1
         = [LoadCheckpoint; GetRandomWord (word a); Sample x y])
  ∧ ((∃ c, c ∈ context_of (word a) ∧ c ∉ text) →
     (sample_completion (CharDataset_init text bs) a).1
     = [LoadCheckpoint; GetRandomWord (word a)]).
Proof.
  assert (∀ x y,
            Sample x y ∈ (sample_completion (CharDataset_init text bs) a).1 →
            mapM (stoi_at (CharDataset_init text bs)) (context_of (word a))
            = Ok x
            ∧ y = sampler a x
            ∧ (sample_completion (CharDataset_init text bs) a).1
              = [LoadCheckpoint; GetRandomWord (word a); Sample x y])
    as Hevent.
  { intros x y. unfold sample_completion.
    destruct (mapM (stoi_at (CharDataset_init text bs))
                (context_of (word a))) as [x'|e]; cbn [fst].
    - rewrite !elem_of_cons, elem_of_nil.
      intros [?|[?|[[= -> ->]|[]]]]; done.
    - rewrite !elem_of_cons, elem_of_nil. intros [?|[?|[]]]; done. }
  split_and!.
  - split.
    + intros Hall. destruct (encode_corpus text bs _ Hall) as [x Hx].
      exists x, (sampler a x). unfold sample_completion. rewrite Hx.
      cbn [fst]. rewrite !elem_of_cons. auto.
    + intros (x & y & Hin) c Hc.
      destruct (Hevent x y Hin) as (Henc & _).
      apply mapM_Ok in Henc.
      apply list_elem_of_lookup in Hc as [i Hi].
      destruct (Forall2_lookup_l _ _ _ _ _ Henc Hi) as (j & _ & Hj).
      apply stoi_at_Ok in Hj.
      destruct (decide (c ∈ text)) as [|Hn]; [done|].
      apply (stoi_None text bs) in Hn. congruence.
  - intros x y Hin. destruct (Hevent x y Hin) as (Henc & Hy & Htr).
    split_and!; [done | by apply encode_decode | done | done].
  - intros (c & Hc & Hn). apply (stoi_None text bs) in Hn.
    destruct (encode_missing _ _ _ Hc Hn) as (c' & _ & _ & Hm).
    unfold sample_completion. by rewrite Hm.
Qed.

Lemma attempt_result_Raise ds a e :
  attempt_result ds a = Raise e →
  (∃ c, e = KeyErrorChar c ∧ c ∈ context_of (word a) ∧ stoi ds !! c = None)
  ∨ (∃ x i,
       mapM (stoi_at ds) (context_of (word a)) = Ok x
       ∧ e = KeyErrorInt i ∧ i ∈ sampler a x ∧ itos ds !! i = None)
  ∨ (∃ x completion,
       mapM (stoi_at ds) (context_of (word a)) = Ok x
       ∧ mapM (itos_at ds) (sampler a x) = Ok completion
       ∧ e = ValueError
       ∧ ∀ pre post, completion ≠ pre ++ lit "END" ++ post).
Proof.
  unfold attempt_result, iteration, sample_completion.
  destruct (mapM (stoi_at ds) _) as [x|e1] eqn:Hx; cbn [snd].
  - destruct (mapM (itos_at ds) _) as [completion|e2] eqn:Hy.
    + change (Ok completion ≫= truncate) with (truncate completion).
      unfold truncate, index.
      destruct (find completion _) eqn:Hf; [done|]. intros [= <-].
      right; right. exists x, completion. split_and!; [done..|].
      by apply find_None.
    + intros [= <-]. apply mapM_Raise in Hy as (i & ? & [-> ?]%itos_at_Raise).
      right; left. by exists x, i.
  - intros [= <-]. apply mapM_Raise in Hx as (c & ? & [-> ?]%stoi_at_Raise).
    left. by exists c.
Qed.

(** The statements of the script itself raise in a pass in three ways only,
    each with its cause: [KeyError] at line 109 for a prompt character the
    encoding table lacks, [KeyError] at line 111 for a sampled token the
    decoding table lacks, [ValueError] at line 112 for a completion without
    END.  The reads of [completion] and [first_end] at line 116 never fail:
    the loop is not left before a pass has bound them.  (Failures inside the
    calls to the outside world are not the subject here.) *)
Theorem pass_raises_by_cause ds :
  (∀ a e,
     attempt_result ds a = Raise e →
     (∃ c, e = KeyErrorChar c ∧ c ∈ context_of (word a)
           ∧ stoi ds !! c = None)
     ∨ (∃ x i,
          mapM (stoi_at ds) (context_of (word a)) = Ok x
          ∧ e = KeyErrorInt i ∧ i ∈ sampler a x ∧ itos ds !! i = None)
     ∨ (∃ x completion,
          mapM (stoi_at ds) (context_of (word a)) = Ok x
          ∧ mapM (itos_at ds) (sampler a x) = Ok completion
          ∧ e = ValueError
          ∧ ∀ pre post, completion ≠ pre ++ lit "END" ++ post))
  ∧ (∀ answers, outcome_of (generate ds answers) ≠ Crashed NameError).
Proof.
  split; [intros a e; apply attempt_result_Raise|].
  intros answers Hc. pose proof (generate_outcome ds answers) as Hout.
  rewrite Hc in Hout. destruct Hout as (k & a & _ & _ & He & _).
  apply attempt_result_Raise in He
    as [(c & ? & _)|[(x & i & _ & ? & _)|(x & completion & _ & _ & ? & _)]];
    done.
Qed.

Lemma pass_raises_by_cause_witness :
  (∃ c, ValueError = KeyErrorChar c ∧ c ∈ context_of (word Demo.endless)
        ∧ stoi Demo.ds !! c = None)
  ∨ (∃ x i,
       mapM (stoi_at Demo.ds) (context_of (word Demo.endless)) = Ok x
       ∧ ValueError = KeyErrorInt i ∧ i ∈ sampler Demo.endless x
       ∧ itos Demo.ds !! i = None)
  ∨ (∃ x completion,
       mapM (stoi_at Demo.ds) (context_of (word Demo.endless)) = Ok x
       ∧ mapM (itos_at Demo.ds) (sampler Demo.endless x) = Ok completion
       ∧ ValueError = ValueError
       ∧ ∀ pre post, completion ≠ pre ++ lit "END" ++ post).
Proof.
  refine (proj1 (pass_raises_by_cause Demo.ds) Demo.endless ValueError _).
  vm_compute. reflexivity.
Defined.

Lemma retry_loop_ignores_later ds answers more :
  ∀ breaks last,
  outcome_of (retry_loop ds breaks last answers) ≠ Sampling →
  retry_loop ds breaks last (answers ++ more)
  = retry_loop ds breaks last answers.
Proof.
  induction answers as [|a answers IH]; intros breaks last; simpl.
  - destruct (18 <? breaks) eqn:Hb; [intros Hne; by destruct Hne|].
    intros _. destruct more; simpl; by rewrite Hb.
  - destruct (18 <? breaks); [|done].
    destruct (iteration ds a) as [tr [v|e]]; [|done]. simpl.
    intros Hne. by rewrite IH.
Qed.

(** Once a run has ended, by a written file or by an exception, answers
    that the outside world would give later change nothing. *)
Theorem generate_ignores_later ds answers more :
  outcome_of (generate ds answers) ≠ Sampling →
  generate ds (answers ++ more) = generate ds answers.
Proof. apply retry_loop_ignores_later. Qed.

Lemma generate_ignores_later_witness :
  generate Demo.ds ([Demo.long; Demo.short] ++ [Demo.endless; Demo.dog])
  = generate Demo.ds [Demo.long; Demo.short].
Proof.
  refine (generate_ignores_later Demo.ds [Demo.long; Demo.short]
            [Demo.endless; Demo.dog] _).
  vm_compute. discriminate.
Defined.

(** The loop is still going after the answers given exactly when every one
    of them was rejected; it has then made a pass, and loaded the
    checkpoint, for each of them.  No number of passes ends it. *)
Theorem sampling_iff_all_rejected ds answers :
  (outcome_of (generate ds answers) = Sampling
   ↔ Forall (rejected ds) answers)
  ∧ (Forall (rejected ds) answers →
     attempts (generate ds answers) = length answers
     ∧ loads (trace (generate ds answers)) = length answers).
Proof.
  assert (Forall (rejected ds) answers →
          outcome_of (generate ds answers) = Sampling
          ∧ attempts (generate ds answers) = length answers
          ∧ loads (trace (generate ds answers)) = length answers) as Hall.
  { intros Hrej.
    destruct (retry_loop_rejected ds answers Hrej 1000 None)
      as (breaks & last & Hb & Heq); [lia|].
    specialize (Heq []). rewrite app_nil_r in Heq.
    unfold generate. rewrite Heq, retry_loop_nil by done. simpl.
    split_and!; [done | lia |].
    by rewrite app_nil_r, loads_passes. }
  split.
  - split; [|intros Hrej; by destruct (Hall Hrej)].
    intros Hs. pose proof (generate_outcome ds answers) as Hout.
    rewrite Hs in Hout. by destruct Hout.
  - intros Hrej. by destruct (Hall Hrej) as (_ & ? & ?).
Qed.

(** The text written: a body with no END in it but the one that closes it,
    of at most 18 line breaks, followed by the signature line. *)
Theorem written_text_format ds answers content :
  outcome_of (generate ds answers) = Written content →
  ∃ body,
    content = body ++ lit "END" ++ [nl] ++ lit "Poetic AI"
    ∧ count body nl ≤ 18
    ∧ find (body ++ lit "END") (lit "END") = Some (length body).
Proof.
  intros Hw. pose proof (generate_outcome ds answers) as Hout.
  rewrite Hw in Hout.
  destruct Hout as (k & a & v & _ & _ & [Hv Hle] & -> & _).
  destruct (attempt_result_Ok _ _ _ Hv) as (tr & _ & Ht).
  destruct (truncate_Ok _ _ Ht) as (Hf & _ & Hg & Hn).
  destruct (find_Some _ _ _ Hf) as (pre & post & Heq & Hlen & Hmin).
  assert (generation v = pre ++ lit "END") as Hgen.
  { rewrite Hg, Heq, app_assoc. apply take_app_length'.
    rewrite length_app, Hlen. done. }
  exists pre. split_and!.
  - unfold signed. by rewrite Hgen, <-app_assoc.
  - rewrite Hn, Hgen, count_app in Hle. lia.
  - destruct (find_occurs (pre ++ lit "END") (lit "END") pre [])
      as (j & Hj & Hjle); [by rewrite app_nil_r|].
    rewrite Hj. f_equal.
    destruct (find_Some _ _ _ Hj) as (pre' & post' & Heq' & Hlen' & _).
    assert (first_end v ≤ length pre') as Hm.
    { apply (Hmin pre' (post' ++ post)).
      rewrite Heq, app_assoc, Heq'. by rewrite <-!app_assoc. }
    lia.
Qed.

Lemma written_text_format_witness :
  ∃ body,
    Demo.short_generation ++ [nl] ++ lit "Poetic AI"
    = body ++ lit "END" ++ [nl] ++ lit "Poetic AI"
    ∧ count body nl ≤ 18.
Proof.
  destruct (written_text_format Demo.ds [Demo.long; Demo.short]
              (Demo.short_generation ++ [nl] ++ lit "Poetic AI"))
    as (body & Hc & Hn & _).
  - vm_compute. reflexivity.
  - exists body. split; [exact Hc | exact Hn].
Defined.

End loop_more.
